(** * Query construction and streaming export of the table explorer

    A shallow embedding of the query view ([QueryView]), of the wire
    types of the backend client ([FilterOp], [QueryBody]) and of the
    column-width estimator of the data grid ([useColumnWidths]),
    followed by the properties established about them.

    Conventions of the embedding:
    - a JavaScript string is a [string]; each [ascii] stands for one
      UTF-16 code unit in the range U+0000..U+00FF;
    - [undefined] and [null] are [None];
    - a JavaScript number that the code only ever uses as an integer
      (a line count, a timer id, a clock reading) is a [Z] or a [nat];
      the numbers read from user text keep the exact value of their
      literal (see [number]); the limit and the offset of the view,
      which the code adds, subtracts and reads from text, are binary64
      numbers (see [Binary64]);
    - React state is passed explicitly. *)

From Stdlib Require Import ZArith QArith Qround Qpower Ascii Lia SpecFloat.
From Stdlib Require Import Numbers.DecimalString.
From Stdlib Require Init.Byte Qcanon.
From stdpp Require Import base option list strings gmap.

Local Open Scope Z_scope.

(** ** JavaScript string primitives used by the view *)

Module Js.

(** The code units [String.prototype.trim] removes and that
    [Number] skips: TAB, LF, VT, FF, CR, SPACE and NBSP (the white
    space and line terminators below U+0100). *)
Definition is_white_space (c : ascii) : bool :=
  let n := nat_of_ascii c in
  ((9 <=? n)%nat && (n <=? 13)%nat) || (n =? 32)%nat || (n =? 160)%nat.

Fixpoint trimStart (s : string) : string :=
  match s with
  | EmptyString => EmptyString
  | String c r => if is_white_space c then trimStart r else s
  end.

Fixpoint trimEnd (s : string) : string :=
  match s with
  | EmptyString => EmptyString
  | String c r =>
      match trimEnd r with
      | EmptyString => if is_white_space c then EmptyString else String c EmptyString
      | r' => String c r'
      end
  end.

(** [s.trim()] *)
Definition trim (s : string) : string := trimEnd (trimStart s).

(** [s.split(sep)] for a one-character separator: always at least one
    piece, the empty string splits into one empty piece. *)
Fixpoint split (sep : ascii) (s : string) : list string :=
  match s with
  | EmptyString => [EmptyString]
  | String c r =>
      if Ascii.eqb c sep then EmptyString :: split sep r
      else match split sep r with
           | h :: t => String c h :: t
           | [] => [String c EmptyString]
           end
  end.

(** Truthiness of a string: [Boolean(s)], [!!s], [s.length > 0]. *)
Definition truthy (s : string) : bool :=
  match s with EmptyString => false | String _ _ => true end.

(** Truthiness of an optional string such as [f.column]. *)
Definition truthy_opt (o : option string) : bool :=
  match o with Some s => truthy s | None => false end.

(** *** Numbers read from text

    [Number(s)] applies the StringNumericLiteral grammar of the
    language to the whole of [s].  The value is kept exactly as the
    literal denotes it: a sign, a natural mantissa and a power of ten.
    The engine afterwards rounds that value to a binary64; the
    rounding is a function of the value kept here. *)
Inductive number : Type :=
| NaN
| Infinity (negative : bool)
| Finite (negative : bool) (mantissa : N) (exp10 : Z).

#[global] Instance number_eq_dec : EqDecision number.
Proof. solve_decision. Defined.

Definition isNaN (n : number) : bool :=
  match n with NaN => true | _ => false end.

(** The number an integer denotes. *)
Definition of_Z (z : Z) : number := Finite (z <? 0) (Z.abs_N z) 0.

Definition digit_of (base : N) (c : ascii) : option N :=
  let n := N_of_ascii c in
  let d :=
    if (48 <=? n)%N && (n <=? 57)%N then Some (n - 48)%N
    else if (97 <=? n)%N && (n <=? 102)%N then Some (n - 87)%N
    else if (65 <=? n)%N && (n <=? 70)%N then Some (n - 55)%N
    else None in
  match d with
  | Some v => if (v <? base)%N then Some v else None
  | None => None
  end.

(** Reads the longest run of digits of [base] at the head of [s],
    continuing the value [acc]; returns the value, the number of
    digits read and the rest. *)
Fixpoint digits (base : N) (acc : N) (s : string) : N * nat * string :=
  match s with
  | EmptyString => (acc, 0%nat, s)
  | String c r =>
      match digit_of base c with
      | Some d =>
          let '(v, k, rest) := digits base (acc * base + d)%N r in (v, S k, rest)
      | None => (acc, 0%nat, s)
      end
  end.

(** ExponentPart_opt at the end of a decimal literal. *)
Definition exponent_part (negative : bool) (m : N) (e0 : Z) (s : string) : number :=
  match s with
  | EmptyString => Finite negative m e0
  | String c r =>
      if Ascii.eqb c "e" || Ascii.eqb c "E" then
        let '(sgn, r1) :=
          match r with
          | String "+" r' => (1, r')
          | String "-" r' => (-1, r')
          | _ => (1, r)
          end in
        match digits 10 0 r1 with
        | (x, S _, EmptyString) => Finite negative m (e0 + sgn * Z.of_N x)
        | _ => NaN
        end
      else NaN
  end.

(** StrUnsignedDecimalLiteral *)
Definition unsigned_decimal (negative : bool) (s : string) : number :=
  if String.eqb s "Infinity" then Infinity negative
  else
    let '(ip, ni, r1) := digits 10 0 s in
    match r1 with
    | String "." r2 =>
        let '(m, nf, r3) := digits 10 ip r2 in
        match (ni + nf)%nat with
        | O => NaN
        | S _ => exponent_part negative m (- Z.of_nat nf) r3
        end
    | _ =>
        match ni with
        | O => NaN
        | S _ => exponent_part negative ip 0 r1
        end
    end.

(** NonDecimalIntegerLiteral: the digits after [0x], [0o] or [0b]. *)
Definition radix_literal (base : N) (s : string) : number :=
  match digits base 0 s with
  | (v, S _, EmptyString) => Finite false v 0
  | _ => NaN
  end.

(** StrNumericLiteral, on a string without surrounding white space. *)
Definition numeric_literal (s : string) : number :=
  match s with
  | String "0" (String "x" r) | String "0" (String "X" r) => radix_literal 16 r
  | String "0" (String "o" r) | String "0" (String "O" r) => radix_literal 8 r
  | String "0" (String "b" r) | String "0" (String "B" r) => radix_literal 2 r
  | String "+" r => unsigned_decimal false r
  | String "-" r => unsigned_decimal true r
  | _ => unsigned_decimal false s
  end.

(** [Number(s)]: white space around the literal is skipped, and the
    string that is empty or all white space is [+0]. *)
Definition Number (s : string) : number :=
  match trim s with
  | EmptyString => Finite false 0 0
  | t => numeric_literal t
  end.

End Js.

(** ** Binary64 numbers

    The limit and the offset of the view are JavaScript numbers: the
    limit is [Math.max(1, Number(text))] for whatever text the input
    holds, the offset is a sum or a difference of such numbers. *)

Module Binary64.

Local Open Scope Q_scope.

(** A number: [NaN], an infinity, or a finite binary64, given by the
    rational it is, in lowest terms. The sign of a zero is not kept:
    no operation below tells [-0] from [+0]. *)
Inductive num : Type :=
| NaN
| Inf (negative : bool)
| Fin (q : Q).

#[global] Instance Q_eq_dec : EqDecision Q.
Proof. solve_decision. Defined.
#[global] Instance num_eq_dec : EqDecision num.
Proof. solve_decision. Defined.

(** The number an integer literal of the code denotes. *)
Definition of_Z (z : Z) : num := Fin (inject_Z z).

(** [floor(log2 x)] for a positive rational. *)
Definition binade (x : Q) : Z :=
  let e := (Z.log2 (Qnum x) - Z.log2 (Zpos (Qden x)))%Z in
  if Qle_bool (Qpower 2 e) x then e else (e - 1)%Z.

Definition round_to_even (x : Q) : Z :=
  let q := Qfloor x in
  let frac := x - inject_Z q in
  match Qcompare frac (1 # 2) with
  | Lt => q
  | Gt => (q + 1)%Z
  | Eq => if Z.even q then q else (q + 1)%Z
  end.

(** Rounding of a positive rational to the nearest binary64, ties to
    even: 53 significant bits, no exponent below [-1074] (the
    subnormal numbers), and [2^1024] or more is an overflow. *)
Definition round_pos (x : Q) : num :=
  let u := Z.max (binade x - 52) (-1074) in
  let r := inject_Z (round_to_even (x / Qpower 2 u)) * Qpower 2 u in
  if Qle_bool (Qpower 2 1024) r then Inf false else Fin (Qred r).

(** [-x] *)
Definition fneg (x : num) : num :=
  match x with
  | NaN => NaN
  | Inf s => Inf (negb s)
  | Fin q => Fin (Qred (- q))
  end.

(** Rounding of a rational to the nearest binary64. *)
Definition round64 (x : Q) : num :=
  match Qnum x with
  | Z0 => Fin 0
  | Zpos _ => round_pos x
  | Zneg _ => fneg (round_pos (- x))
  end.

(** [a + b] and [a - b] *)
Definition fadd (a b : num) : num :=
  match a, b with
  | NaN, _ | _, NaN => NaN
  | Inf s, Inf s' => if Bool.eqb s s' then Inf s else NaN
  | Inf s, Fin _ | Fin _, Inf s => Inf s
  | Fin p, Fin q => round64 (p + q)
  end.

Definition fsub (a b : num) : num := fadd a (fneg b).

(** [Math.max(a, b)]: [NaN] as soon as an argument is. *)
Definition Math_max (a b : num) : num :=
  match a, b with
  | NaN, _ | _, NaN => NaN
  | Inf false, _ | _, Inf false => Inf false
  | Inf true, x | x, Inf true => x
  | Fin p, Fin q => if Qle_bool p q then b else a
  end.

(** The value a numeric literal denotes, and the number it is read as. *)
Definition value_of (negative : bool) (mantissa : N) (exp10 : Z) : Q :=
  (if negative then -1 else 1) * inject_Z (Z.of_N mantissa) * Qpower 10 exp10.

Definition of_number (n : Js.number) : num :=
  match n with
  | Js.NaN => NaN
  | Js.Infinity s => Inf s
  | Js.Finite s m e => round64 (value_of s m e)
  end.

Definition is_finite (x : num) : bool :=
  match x with Fin _ => true | _ => false end.

(** [c <= x], for a rational [c]. *)
Definition at_least (c : Q) (x : num) : Prop :=
  match x with
  | Fin q => c <= q
  | Inf false => True
  | _ => False
  end.

(** The whole number a number is, if it is one. *)
Definition whole (x : num) : option Z :=
  match x with
  | Fin (Qmake n 1) => Some n
  | _ => None
  end.

(** The integers up to [2^53] in size are binary64 numbers, and so are
    their sums and differences of that size. *)
Definition exact_bound : Z := 9007199254740992.

(** *** The same operations in the binary64 format of the standard library

    [SFadd 53 1024], [SFsub 53 1024] and [SFdiv 53 1024] are the IEEE
    754 operations on [spec_float]; they serve to check [fadd], [fsub]
    and [of_number] on sample values. *)

Definition b64 (m e : Z) : spec_float := binary_normalize 53 1024 m e false.

Definition of_b64 (f : spec_float) : num :=
  match f with
  | S754_zero _ => Fin 0
  | S754_infinity s => Inf s
  | S754_nan => NaN
  | S754_finite s m e =>
      Fin (Qred ((if s then -1 else 1) * inject_Z (Zpos m) * Qpower 2 e))
  end.

(** Zero, small integers, [1.3] and its multiples, the integers around
    [2^53], the largest and the smallest binary64, [0.1], and their
    opposites; the infinities and [NaN]. *)
Definition samples : list spec_float :=
  let finite :=
    [b64 0 0; b64 1 0; b64 30 0; b64 100 0; b64 5854679515581645 (-52);
     b64 5854679515581645 (-51); b64 8782019273372468 (-51);
     b64 9007199254740991 0; b64 9007199254740992 0; b64 9007199254740994 0;
     b64 27021597764222973 0; b64 9007199254740991 971; b64 1 1023;
     b64 1 (-1074); b64 1 (-1022); b64 3602879701896397 (-55)] in
  finite ++ map SFopp finite ++ [S754_infinity false; S754_infinity true; S754_nan].

Definition sums_agree : bool :=
  forallb (fun a =>
    forallb (fun b =>
      bool_decide (fadd (of_b64 a) (of_b64 b) = of_b64 (SFadd 53 1024 a b)) &&
      bool_decide (fsub (of_b64 a) (of_b64 b) = of_b64 (SFsub 53 1024 a b)))
      samples) samples.

Definition literals_agree : bool :=
  forallb (fun '(text, p, q) =>
             bool_decide (of_number (Js.Number text)
                          = of_b64 (SFdiv 53 1024 (b64 p 0) (b64 q 0))))
    [("1.3", 13, 10); ("0.1", 1, 10); ("30", 30, 1); ("2.5e-3", 25, 10000);
     ("-7.25", -29, 4); ("1e22", 10 ^ 22, 1); ("9007199254740993", 9007199254740993, 1);
     ("0x1F", 31, 1); ("1e400", 10 ^ 400, 1); ("  12  ", 12, 1)]%Z.

End Binary64.

(** ** Wire types of the backend client *)

Module Api.

(** [FilterOp]: the union of operator tokens the request body accepts. *)
Inductive FilterOp : Type :=
| eq | neq | lt | lte | gt | gte | like
| in_ | between | in_range | is_null | is_not_null.

#[global] Instance FilterOp_eq_dec : EqDecision FilterOp.
Proof. solve_decision. Defined.

(** The token each member of the union is written as. *)
Definition token (o : FilterOp) : string :=
  match o with
  | eq => "eq" | neq => "neq" | lt => "lt" | lte => "lte"
  | gt => "gt" | gte => "gte" | like => "like" | in_ => "in"
  | between => "between" | in_range => "in_range"
  | is_null => "is_null" | is_not_null => "is_not_null"
  end.

(** Membership of a token in the union type. *)
Definition of_token (s : string) : option FilterOp :=
  if String.eqb s "eq" then Some eq
  else if String.eqb s "neq" then Some neq
  else if String.eqb s "lt" then Some lt
  else if String.eqb s "lte" then Some lte
  else if String.eqb s "gt" then Some gt
  else if String.eqb s "gte" then Some gte
  else if String.eqb s "like" then Some like
  else if String.eqb s "in" then Some in_
  else if String.eqb s "between" then Some between
  else if String.eqb s "in_range" then Some in_range
  else if String.eqb s "is_null" then Some is_null
  else if String.eqb s "is_not_null" then Some is_not_null
  else None.

Definition accepts (s : string) : bool := bool_decide (is_Some (of_token s)).

(** A value as it is serialised in a clause: what [coerceType]
    returns, or an array of such values. *)
Inductive scalar : Type :=
| VBool (b : bool)
| VNum (n : Js.number)
| VStr (s : string).

Inductive clause_value : Type :=
| Scalar (v : scalar)
| Array (vs : list scalar).

(** One element of [QueryBody.filters]; [value] is [None] when the key
    is absent. *)
Record FilterClause : Type := mkClause {
  column : string;
  op : FilterOp;
  value : option clause_value
}.

(** A record of a result page ([rows: any[]]): an object from column
    names to values, each value of a key that is present and not
    [null] being kept as the text [String(val)] gives for it. An
    element of [rows] that is itself [null] is [None]. *)
Abbreviation Row := (gmap string string).

Inductive LogicalOperator : Type := AND | OR.
Inductive Direction : Type := asc | desc.

Record OrderBy : Type := mkOrderBy {
  ob_column : string;
  direction : Direction
}.

Record QueryBody : Type := mkQueryBody {
  filters : list FilterClause;
  logical_operator : LogicalOperator;
  order_by : option OrderBy;
  limit : Binary64.num;
  offset : Binary64.num;
  fields : option (list string)
}.

#[global] Instance scalar_eq_dec : EqDecision scalar.
Proof. solve_decision. Defined.
#[global] Instance clause_value_eq_dec : EqDecision clause_value.
Proof. solve_decision. Defined.
#[global] Instance FilterClause_eq_dec : EqDecision FilterClause.
Proof. solve_decision. Defined.
#[global] Instance LogicalOperator_eq_dec : EqDecision LogicalOperator.
Proof. solve_decision. Defined.
#[global] Instance Direction_eq_dec : EqDecision Direction.
Proof. solve_decision. Defined.
#[global] Instance OrderBy_eq_dec : EqDecision OrderBy.
Proof. solve_decision. Defined.
#[global] Instance QueryBody_eq_dec : EqDecision QueryBody.
Proof. solve_decision. Defined.

End Api.

(** ** The query view *)

Module QueryView.

Import Api.

(** [OPS], the operators the selector of a filter row offers. *)
Definition OPS : list FilterOp :=
  [eq; neq; lt; lte; gt; gte; like; in_; between; in_range; is_null; is_not_null].

(** [OPS] as declared in [src/components/QueryView.tsx], token by token. *)
Definition OPS_components : list string :=
  ["eq"; "neq"; "lt"; "lte"; "gt"; "gte"; "contains"].

(** The operator tokens as the interface description lists them. *)
Definition listed_tokens : list string :=
  ["eq"; "neq"; "lt"; "lte"; "gt"; "gte"; "like"; "in"; "between"; "in_range";
   "is_null"; "is_not_null"].

Definition NO_VALUE_OPS : list FilterOp := [is_null; is_not_null].
Definition ARRAY_VALUE_OPS : list FilterOp := [in_; in_range].

(** [set.has(x)] *)
Definition has (set : list FilterOp) (x : FilterOp) : bool :=
  bool_decide (x ∈ set).

(** A filter row being edited. *)
Record FilterRow : Type := mkRow {
  row_column : option string;
  row_op : FilterOp;
  row_value : option string
}.

(** The [orderBy] state: the column is optional there. *)
Record OrderByState : Type := mkOrderByState {
  sort_column : option string;
  sort_direction : Direction
}.

(** The state of the component: its props and its [useState] cells. *)
Record View : Type := mkView {
  selectedTable : option string;
  fields : list string;
  filters : list FilterRow;
  logical : LogicalOperator;
  orderBy : OrderByState;
  limit : Binary64.num;
  offset : Binary64.num
}.

(** The state the component mounts with. *)
Definition initial (table : option string) : View :=
  {| selectedTable := table; fields := []; filters := [];
     logical := AND; orderBy := mkOrderByState None desc;
     limit := Binary64.of_Z 100; offset := Binary64.of_Z 0 |}.

Definition coerceType (v : string) : scalar :=
  let trimmed := Js.trim v in
  if String.eqb trimmed "true" then VBool true
  else if String.eqb trimmed "false" then VBool false
  else
    let n := Js.Number trimmed in
    if Js.isNaN n then VStr trimmed else VNum n.

(** The callback mapped over [filters] in [queryBody]: [None] is the
    [null] that the following [filter(Boolean)] removes. *)
Definition compileRow (f : FilterRow) : option FilterClause :=
  match row_column f with
  | None => None
  | Some col =>
      if negb (Js.truthy col) then None
      else
        let op := row_op f in
        if has NO_VALUE_OPS op then Some (mkClause col op None)
        else
          let raw := default EmptyString (row_value f) in
          if bool_decide (op = between) then
            let parts := filter (fun s => Js.truthy s = true) (map Js.trim (Js.split "," raw)) in
            if negb (length parts =? 2)%nat then None
            else Some (mkClause col op (Some (Array (map coerceType parts))))
          else if has ARRAY_VALUE_OPS op then
            let arr :=
              map coerceType
                (filter (fun s => (0 <? String.length s)%nat = true)
                        (map Js.trim (Js.split "," raw))) in
            if negb (0 <? length arr)%nat then None
            else Some (mkClause col op (Some (Array arr)))
          else if negb (Js.truthy raw) then None
          else Some (mkClause col op (Some (Scalar (coerceType raw))))
  end.

(** The comma-separated parts of a raw value, each trimmed, the empty
    ones left out, in their order. *)
Definition tokens (raw : string) : list string :=
  filter (fun s => s <> EmptyString) (map Js.trim (Js.split "," raw)).

(** [filters.map(...).filter(Boolean)] *)
Definition processed (fs : list FilterRow) : list FilterClause :=
  omap compileRow fs.

(** The memoised [queryBody]. *)
Definition queryBody (v : View) : option QueryBody :=
  if negb (Js.truthy_opt (selectedTable v)) then None
  else Some {|
    Api.filters := processed (filters v);
    logical_operator := logical v;
    order_by :=
      match sort_column (orderBy v) with
      | Some c => if Js.truthy c then Some (mkOrderBy c (sort_direction (orderBy v))) else None
      | None => None
      end;
    Api.limit := limit v;
    Api.offset := offset v;
    Api.fields := if (0 <? length (fields v))%nat then Some (fields v) else None
  |}.

(** *** Pagination controls *)

Inductive PageOp : Type :=
| Prev
| Next
| EditLimit (text : string).

(** [Math.max(1, Number(e.target.value))], the limit stored for the
    text the input holds. *)
Definition typed (text : string) : Binary64.num :=
  Binary64.Math_max (Binary64.of_Z 1) (Binary64.of_number (Js.Number text)).

(** [Prev] and [Next] update the offset from the limit of the current
    render; an edit of the limit input stores [typed text]. *)
Definition page (v : View) (o : PageOp) : View :=
  match o with
  | Prev =>
      {| selectedTable := selectedTable v; fields := fields v; filters := filters v;
         logical := logical v; orderBy := orderBy v; limit := limit v;
         offset := Binary64.Math_max (Binary64.of_Z 0)
                     (Binary64.fsub (offset v) (limit v)) |}
  | Next =>
      {| selectedTable := selectedTable v; fields := fields v; filters := filters v;
         logical := logical v; orderBy := orderBy v; limit := limit v;
         offset := Binary64.fadd (offset v) (limit v) |}
  | EditLimit text =>
      {| selectedTable := selectedTable v; fields := fields v; filters := filters v;
         logical := logical v; orderBy := orderBy v; limit := typed text;
         offset := offset v |}
  end.

Definition pages (v : View) (os : list PageOp) : View := foldl page v os.

(** Every text typed into the limit input gives a finite limit. *)
Definition finite_edits (os : list PageOp) : bool :=
  forallb (fun o =>
             match o with
             | EditLimit text => Binary64.is_finite (typed text)
             | _ => true
             end) os.

(** Every edit of the limit in [os] is made while the offset is 0 and
    gives a whole number up to [2^53], and every Next leaves the
    offset, a whole number, at [2^53] or below. *)
Fixpoint steady (v : View) (os : list PageOp) : bool :=
  match os with
  | [] => true
  | o :: r =>
      match o with
      | EditLimit text =>
          bool_decide (offset v = Binary64.of_Z 0) &&
          match Binary64.whole (typed text) with
          | Some l => l <=? Binary64.exact_bound
          | None => false
          end
      | Next =>
          match Binary64.whole (offset v), Binary64.whole (limit v) with
          | Some n, Some l => n + l <=? Binary64.exact_bound
          | _, _ => false
          end
      | Prev => true
      end && steady (page v o) r
  end.

(** The limit is a whole step and the offset a whole number of steps. *)
Definition aligned (v : View) : Prop :=
  exists k l : Z, 0 <= k /\ 1 <= l /\
    limit v = Binary64.of_Z l /\ offset v = Binary64.of_Z (k * l).

(** *** Editing a filter row *)

(** The [onChange] of the operator selector of row [idx]. *)
Definition setRowOp (idx : nat) (newop : FilterOp) (arr : list FilterRow) : list FilterRow :=
  imap (fun i it =>
          if (i =? idx)%nat
          then {| row_column := row_column it; row_op := newop; row_value := None |}
          else it) arr.

End QueryView.

(** ** The streaming export of the query view *)

Module ExportPipeline.

Import Byte.
Import QueryView.

Abbreviation bytes := (list byte).

(** [`${n}`] for a non-negative integer and for an integer. *)
Definition show_nat (n : nat) : string := NilZero.string_of_uint (Nat.to_uint n).
Definition show_Z (z : Z) : string := NilZero.string_of_int (Z.to_int z).

(** U+2026, the ellipsis of two toast texts, as its UTF-8 bytes. *)
Definition ellipsis : string :=
  String (ascii_of_nat 226) (String (ascii_of_nat 128) (String (ascii_of_nat 166) EmptyString)).

(** What the user gets to see of an export: toasts, updates of the
    first toast, and the file the anchor click saves (the blob, its
    type and the [download] name). *)
Inductive effect : Type :=
| Toast (title : string) (description : option string) (destructive : bool)
| ToastUpdate (title description : string)
| Download (filename mime : string) (content : bytes).

(** What the backend does with one export: [streamData] throws, or
    returns a body whose reader yields [reads] (the [value] of each
    [read()] with [done] false) and then reports the end of the
    stream or rejects. The [message] is [e?.message]. *)
Inductive ending : Type :=
| Done
| ReadFailed (message : option string).

Inductive response : Type :=
| StreamFailed (message : option string)
| Stream (reads : list (option bytes)) (last : ending).

Definition nl : byte := x0a.
Definition bom : bytes := [xef; xbb; xbf].

(** Pieces of a byte sequence between occurrences of [sep]. *)
Fixpoint split_bytes (sep : byte) (bs : bytes) : list bytes :=
  match bs with
  | [] => [[]]
  | b :: r =>
      if Byte.eqb b sep then [] :: split_bytes sep r
      else match split_bytes sep r with
           | h :: t => (b :: h) :: t
           | [] => [[b]]
           end
  end.

(** A fresh [TextDecoder] drops a byte-order mark at the head of its
    input. *)
Definition strip_bom (bs : bytes) : bytes :=
  match bs with
  | b1 :: b2 :: b3 :: r =>
      if Byte.eqb b1 xef && Byte.eqb b2 xbb && Byte.eqb b3 xbf then r else bs
  | _ => bs
  end.

(** [new TextDecoder().decode(value).split(newline).filter(Boolean).length].
    UTF-8 decoding turns the byte 0x0A, and no other byte, into a
    newline, and turns every non-empty run of other bytes into a
    non-empty text (ill-formed input becomes U+FFFD); so the pieces of
    the decoded text and the pieces of the bytes after the mark are
    empty together. *)
Definition count_lines (value : bytes) : nat :=
  length (filter (fun piece => piece <> []) (split_bytes nl (strip_bom value))).

(** The [while (true)] loop over [reader.read()], with its locals
    [chunks] and [lines] and the updates it has sent to the toast. *)
Fixpoint read_loop (reads : list (option bytes)) (chunks : list bytes) (lines : nat)
    (log : list effect) : list bytes * nat * list effect :=
  match reads with
  | [] => (chunks, lines, log)
  | None :: r => read_loop r chunks lines log
  | Some value :: r =>
      let lines' := (lines + count_lines value)%nat in
      read_loop r (chunks ++ [value]) lines'
        (log ++ [ToastUpdate ("Exporting" +:+ ellipsis) (show_nat lines' +:+ " lines")])
  end.

(** The rows and total the grid shows. *)
Record QueryResult : Type := mkResult {
  rows : list (option Api.Row);
  total : Z
}.

(** What is on screen: the state of the view and the result of the
    paginated query. *)
Record Screen : Type := mkScreen {
  view : View;
  result : option QueryResult
}.

(** [onExport], run to its end: [now] is the reading of [Date.now()]
    when the file is named, [resp] the behaviour of the backend. The
    handler calls no state setter; it returns the screen it was
    started from and the effects in the order they happen. *)
Definition onExport (s : Screen) (now : Z) (resp : response) : Screen * list effect :=
  match selectedTable (view s), queryBody (view s) with
  | Some table, Some _ =>
      if negb (Js.truthy table) then (s, [])
      else
        match resp with
        | StreamFailed message => (s, [Toast "Export failed" message true])
        | Stream reads last =>
            let started :=
              Toast "Export started" (Some ("Streaming NDJSON" +:+ ellipsis)) false in
            let '(chunks, lines, log) := read_loop reads [] 0%nat [started] in
            match last with
            | ReadFailed message => (s, log ++ [Toast "Export failed" message true])
            | Done =>
                (s, log ++
                    [Download (table +:+ "-" +:+ show_Z now +:+ ".ndjson")
                              "application/x-ndjson" (concat chunks);
                     Toast "Export complete" (Some (show_nat lines +:+ " lines saved")) false])
            end
        end
  | _, _ => (s, [])
  end.

Definition is_download (e : effect) : bool :=
  match e with Download _ _ _ => true | _ => false end.

(** The chunks of a stream that the loop keeps, in arrival order. *)
Definition received (reads : list (option bytes)) : list bytes := omap id reads.

(** The updates of the first toast while [values] arrive, the count
    standing at [lines] before. *)
Fixpoint updates (lines : nat) (values : list bytes) : list effect :=
  match values with
  | [] => []
  | value :: r =>
      let lines' := (lines + count_lines value)%nat in
      ToastUpdate ("Exporting" +:+ ellipsis) (show_nat lines' +:+ " lines") :: updates lines' r
  end.

(** A chunk made of whole records: each record followed by a newline. *)
Definition terminated (records : list bytes) : bytes :=
  concat (map (fun r => r ++ [nl]) records).

(** A record of such a chunk: some bytes other than the newline, and
    more than a byte-order mark. *)
Definition record_ok (r : bytes) : Prop :=
  r <> [] /\ r <> bom /\ nl ∉ r.

End ExportPipeline.

(** ** Timers of the window and the debounced callback *)

Module Timers.

Section WindowTimers.
(** What a timer runs when it fires. *)
Context {A : Type}.

(** The list of active timers of the window: handles are positive
    and never reused. *)
Record timers : Type := mkTimers {
  next_id : nat;
  pending : list (nat * Z * A)
}.

Definition no_timers : timers := {| next_id := 1; pending := [] |}.

(** [window.setTimeout(cb, delay)] called at time [now]. *)
Definition setTimeout (now delay : Z) (cb : A) (w : timers) : nat * timers :=
  (next_id w,
   {| next_id := S (next_id w);
      pending := pending w ++ [(next_id w, now + delay, cb)] |}).

(** [window.clearTimeout(id)]: nothing happens for a handle that is
    not active. *)
Definition clearTimeout (id : nat) (w : timers) : timers :=
  {| next_id := next_id w;
     pending := filter (fun t => t.1.1 <> id) (pending w) |}.

(** The callbacks that have come due by [now], with the time each
    was due at, and the timers left. *)
Definition fire (now : Z) (w : timers) : list (Z * A) * timers :=
  (map (fun t => (t.1.2, t.2)) (filter (fun t => t.1.2 <= now) (pending w)),
   {| next_id := next_id w;
      pending := filter (fun t => ~ t.1.2 <= now) (pending w) |}).

(** The callbacks still to come, whenever that is. *)
Definition drain (w : timers) : list (Z * A) :=
  map (fun t => (t.1.2, t.2)) (pending w).

(** The function [useDebouncedCallback(fn, delay)] returns, called
    at time [now] with [args]: [ref] is the cell of [useRef], a timer
    runs [fn] on the arguments it was created with. *)
Definition useDebouncedCallback (delay : Z) (now : Z) (args : A)
    (st : option nat * timers) : option nat * timers :=
  let '(ref, w) := st in
  let w1 :=
    match ref with
    | Some id => if (id =? 0)%nat then w else clearTimeout id w
    | None => w
    end in
  let '(id, w2) := setTimeout now delay args w1 in
  (Some id, w2).
End WindowTimers.

Arguments timers : clear implicits.

End Timers.

(** ** The query hook and the Run Query button

    The view hands its key to [useQuery] at every render and calls
    [refetch()] from the debounce timer. What the hook then sends is
    decided by the query library, which is not part of the sources:
    it is described here as the library documents it for a client with
    the default options (no stale time), for answers that carry data.
    A request that fails, and the retries of the library that follow
    it, are not among the events. *)

Module Controller.

Import Timers.

Section Hook.
(** The part of the query key that changes with the view: the
    selected table and the query body. *)
Context {D : Type} `{EqDecision D}.
(** The [enabled] option of the hook. *)
Variable enabled : D -> bool.

(** What the cache of the query client holds for a key. *)
Record entry : Type := mkEntry {
  data : bool;      (* an answer is stored: [state.data] is defined *)
  fetching : bool   (* a request is on its way: [fetchStatus] is not idle *)
}.

Definition store (d : D) (e : entry) (c : D -> entry) : D -> entry :=
  fun d' => if bool_decide (d' = d) then e else c d'.

Inductive source : Type :=
| KeyChange   (* the hook fetching the key it has just been given *)
| Refetch.    (* [refetch()] called by the debounce timer *)

(** A request sent to the query endpoint. *)
Record request : Type := mkRequest {
  at_time : Z;
  why : source;
  body : D
}.

Inductive event : Type :=
| Change (d : D)    (* an edit after which the view renders with key [d] *)
| RunQuery          (* a click on Run Query *)
| Answer (d : D)    (* the request on its way for key [d] is answered *)
| Collect (d : D).  (* the cache drops the entry of [d], idle and unobserved *)

Record state : Type := mkState {
  current : D;
  ref : option nat;
  window : timers unit;
  cache : D -> entry;
  called : list (Z * D);   (* the calls of [refetch()]: when, and the key observed *)
  issued : list request
}.

(** The view once mounted with key [d]; [c] is the cache then, with
    what the mount has left in it for [d]. *)
Definition start (c : D -> entry) (d : D) : state :=
  {| current := d; ref := None; window := no_timers; cache := c;
     called := []; issued := [] |}.

(** The debounce delay passed by the view. *)
Definition delay : Z := 300.

(** The fetch of the library for key [d] at time [now]. A request on
    its way is joined and nothing is sent, unless the caller cancels
    refetches and the key has data: the request on its way is then
    given up for a new one. A key with no request on its way gets
    one. *)
Definition fetch (now : Z) (cause : source) (cancelRefetch : bool) (d : D)
    (s : state) : state :=
  let e := cache s d in
  if fetching e && negb (data e && cancelRefetch) then s
  else
    {| current := current s; ref := ref s; window := window s;
       cache := store d (mkEntry (data e) true) (cache s);
       called := called s;
       issued := issued s ++ [mkRequest now cause d] |}.

(** A debounce timer due at [t.1] runs [() => refetch()]: the key the
    hook observes is fetched, with [cancelRefetch] at its default. *)
Definition refetch (s : state) (t : Z * unit) : state :=
  fetch t.1 Refetch true (current s)
    {| current := current s; ref := ref s; window := window s; cache := cache s;
       called := called s ++ [(t.1, current s)]; issued := issued s |}.

(** Time passes up to [now]: the timers due fire. *)
Definition advance (now : Z) (s : state) : state :=
  let '(due, w) := fire now (window s) in
  foldl refetch
    {| current := current s; ref := ref s; window := w; cache := cache s;
       called := called s; issued := issued s |} due.

(** One event at time [now]. The hook fetches as soon as it is
    rendered with an enabled key different from the one it had, the
    data of a key being stale at once; [runQuery] only calls the
    debounced callback. *)
Definition handle (now : Z) (e : event) (s : state) : state :=
  match e with
  | Change d =>
      let s1 := {| current := d; ref := ref s; window := window s; cache := cache s;
                   called := called s; issued := issued s |} in
      if enabled d && negb (bool_decide (d = current s))
      then fetch now KeyChange false d s1
      else s1
  | RunQuery =>
      let '(r, w) := useDebouncedCallback delay now tt (ref s, window s) in
      {| current := current s; ref := r; window := w; cache := cache s;
         called := called s; issued := issued s |}
  | Answer d =>
      if fetching (cache s d)
      then {| current := current s; ref := ref s; window := window s;
              cache := store d (mkEntry true false) (cache s);
              called := called s; issued := issued s |}
      else s
  | Collect d =>
      if bool_decide (d = current s) || fetching (cache s d) then s
      else {| current := current s; ref := ref s; window := window s;
              cache := store d (mkEntry false false) (cache s);
              called := called s; issued := issued s |}
  end.

Definition step (s : state) (te : Z * event) : state :=
  handle te.1 te.2 (advance te.1 s).

(** The timers still pending fire once the events are over. *)
Definition finish (s : state) : state :=
  foldl refetch
    {| current := current s; ref := ref s;
       window := {| next_id := next_id (window s); pending := [] |};
       cache := cache s; called := called s; issued := issued s |}
    (drain (window s)).

(** A whole run: its calls of [refetch()] and its requests are those
    made while the events happen and those of the timers that fire
    afterwards. *)
Definition run (s : state) (evs : list (Z * event)) : state :=
  finish (foldl step s evs).

Definition is_refetch (r : request) : bool :=
  match why r with Refetch => true | KeyChange => false end.

(** The first request for a key is on its way: a call of [refetch()]
    joins it. *)
Definition joins (e : entry) : bool := fetching e && negb (data e).





End Hook.

End Controller.

(** ** The column-width estimator of the data grid *)

Module DataGrid.

Local Open Scope Q_scope.

(** *** Arithmetic of the estimate

    The estimate is computed on binary64 numbers. A finite binary64 is
    represented by the rational it is; a product is the exact product
    rounded to 53 significant bits, ties to even. The estimates are far
    from the range where a binary64 overflows or is subnormal, so
    neither case is represented. *)

(** [floor(log2 x)] for a positive rational. *)
Definition binade (x : Q) : Z :=
  let e := (Z.log2 (Qnum x) - Z.log2 (Zpos (Qden x)))%Z in
  if Qle_bool (Qpower 2 e) x then e else (e - 1)%Z.

Definition round_to_even (x : Q) : Z :=
  let q := Qfloor x in
  let frac := x - inject_Z q in
  match Qcompare frac (1 # 2) with
  | Lt => q
  | Gt => (q + 1)%Z
  | Eq => if Z.even q then q else (q + 1)%Z
  end.

(** Rounding of a rational to the nearest binary64. *)
Definition rnd53 (x : Q) : Q :=
  match Qnum x with
  | Z0 => 0
  | Zpos _ =>
      let u := (binade x - 52)%Z in
      Qred (inject_Z (round_to_even (x / Qpower 2 u)) * Qpower 2 u)
  | Zneg _ =>
      let u := (binade (- x) - 52)%Z in
      Qred (- (inject_Z (round_to_even (- x / Qpower 2 u)) * Qpower 2 u))
  end.

(** [x * y] on binary64 numbers. *)
Definition fmul (x y : Q) : Q := rnd53 (x * y).

(** The binary64 the literal [0.7] denotes. *)
Definition lit_0_7 : Q := 6305039478318694 # 9007199254740992.

(** [Math.max], [Math.min] and [Math.round] (halves go up). *)
Definition Math_max (a b : Q) : Q := if Qle_bool a b then b else a.
Definition Math_min (a b : Q) : Q := if Qle_bool a b then a else b.
Definition Math_round (x : Q) : Z := Qfloor (x + (1 # 2)).

(** *** [useColumnWidths] *)

Definition charPx : Q := 8.
Definition min : Q := 140.
Definition max : Q := 420.

Definition sampleCount (rows : list (option Api.Row)) : nat :=
  Nat.min 100 (length rows).

(** [val == null ? the empty string : String(val)] for [val = row?.[c]]. *)
Definition row_text (row : option Api.Row) (c : string) : string :=
  match row with
  | Some r => default EmptyString (r !! c)
  | None => EmptyString
  end.

(** The same for [row = rows[i]], which is [undefined] past the end. *)
Definition cell_text (rows : list (option Api.Row)) (i : nat) (c : string) : string :=
  match rows !! i with
  | Some row => row_text row c
  | None => EmptyString
  end.

(** The [for] loop of one column: [maxLen] after the rows
    [0 .. sampleCount - 1]. *)
Definition maxLen (c : string) (rows : list (option Api.Row)) : nat :=
  foldl (fun maxLen i =>
           let len := String.length (cell_text rows i c) in
           if (maxLen <? len)%nat then len else maxLen)
        (String.length c) (seq 0 (sampleCount rows)).

(** [maxLen * charPx * 0.7], the estimate before it is clamped. *)
Definition estimate (len : nat) : Q :=
  fmul (fmul (inject_Z (Z.of_nat len)) charPx) lit_0_7.

Definition width_of_len (len : nat) : Z :=
  let px := Math_min max (Math_max min (estimate len)) in
  Math_round px.

Definition useColumnWidths (columns : list string) (rows : list (option Api.Row)) : list Z :=
  map (fun c => width_of_len (maxLen c rows)) columns.

(** The relative error of one rounding is at most [2^-52]. *)
Definition eps52 : Q := 1 # 4503599627370496.

(** *** The same product in the binary64 format of the standard library

    [SFmul 53 1024] is the IEEE 754 multiplication on [spec_float];
    it serves to check [fmul] and [lit_0_7] on the lengths that occur. *)

Definition b64_of_nat (n : nat) : spec_float :=
  binary_normalize 53 1024 (Z.of_nat n) 0 false.

Definition b64_0_7 : spec_float := S754_finite false 6305039478318694 (-53).

Definition b64_estimate (len : nat) : spec_float :=
  SFmul 53 1024 (SFmul 53 1024 (b64_of_nat len) (b64_of_nat 8)) b64_0_7.

(** The rational a finite binary64 is. *)
Definition Q_of_b64 (f : spec_float) : option Q :=
  match f with
  | S754_zero _ => Some 0
  | S754_finite s m e =>
      Some (Qred ((if s then -1 else 1) * inject_Z (Zpos m) * Qpower 2 e))
  | _ => None
  end.

Definition estimate_agrees (len : nat) : bool :=
  match Q_of_b64 (b64_estimate len) with
  | Some q => Qeq_bool q (estimate len)
  | None => false
  end.

End DataGrid.

(** ** The other handlers of the query view *)

Module Handlers.

Import Api QueryView.

(** The [onValueChange] of the column picker: [v] is appended unless
    the projection has it already. *)
Definition addField (v : string) (prev : list string) : list string :=
  if bool_decide (v ∈ prev) then prev else prev ++ [v].

(** The button of a projected column: [prev.filter((x) => x !== f)]. *)
Definition removeField (f : string) (prev : list string) : list string :=
  filter (fun x => x <> f) prev.

Inductive FieldOp : Type :=
| AddField (v : string)
| RemoveField (f : string).

Definition field (prev : list string) (o : FieldOp) : list string :=
  match o with
  | AddField v => addField v prev
  | RemoveField f => removeField f prev
  end.

(** The view with other filter rows. *)
Definition withFilters (rows : list FilterRow) (v : View) : View :=
  {| selectedTable := selectedTable v; fields := fields v; filters := rows;
     logical := logical v; orderBy := orderBy v; limit := limit v;
     offset := offset v |}.

(** The Add row button: [[...f, { op: eq }]]. *)
Definition addRow (f : list FilterRow) : list FilterRow :=
  f ++ [{| row_column := None; row_op := eq; row_value := None |}].

(** The Remove button of row [idx]: [arr.filter((_, i) => i !== idx)]. *)
Definition removeRow (idx : nat) (arr : list FilterRow) : list FilterRow :=
  (filter (fun p => p.1 <> idx) (imap (fun i it => (i, it)) arr)).*2.

(** The [onChange] of the column selector of row [idx]. *)
Definition setRowColumn (idx : nat) (c : string) (arr : list FilterRow) : list FilterRow :=
  imap (fun i it =>
          if (i =? idx)%nat
          then {| row_column := Some c; row_op := row_op it; row_value := row_value it |}
          else it) arr.

(** The [onChange] of the value input of row [idx]. *)
Definition setRowValue (idx : nat) (x : string) (arr : list FilterRow) : list FilterRow :=
  imap (fun i it =>
          if (i =? idx)%nat
          then {| row_column := row_column it; row_op := row_op it; row_value := Some x |}
          else it) arr.

(** [(f.value || the empty string).toString().split(comma)], of which
    the render takes the first two pieces as [low] and [high]. *)
Definition pieces (f : FilterRow) : list string :=
  Js.split "," (default EmptyString (row_value f)).

Definition low (f : FilterRow) : option string := pieces f !! 0%nat.
Definition high (f : FilterRow) : option string := pieces f !! 1%nat.

(** What the Low and the High input show: [low ?? the empty string]. *)
Definition shown (piece : option string) : string := default EmptyString piece.

(** The [onChange] of the Low and of the High input of row [idx]: the
    other bound is the one of the row [f] that was rendered. *)
Definition setLow (f : FilterRow) (idx : nat) (x : string) (arr : list FilterRow)
    : list FilterRow :=
  setRowValue idx (x +:+ "," +:+ shown (high f)) arr.

Definition setHigh (f : FilterRow) (idx : nat) (x : string) (arr : list FilterRow)
    : list FilterRow :=
  setRowValue idx (shown (low f) +:+ "," +:+ x) arr.

(** The two selectors of the sort. *)
Definition setSortColumn (c : string) (p : OrderByState) : OrderByState :=
  {| sort_column := Some c; sort_direction := sort_direction p |}.

Definition setSortDirection (d : Direction) (p : OrderByState) : OrderByState :=
  {| sort_column := sort_column p; sort_direction := d |}.

(** The view once [selectedTable] has become [t] and the effect on it
    has run: projection, filter rows and offset start again; the rest
    of the state stays. The effect does not run when the table is the
    one already selected. *)
Definition selectTable (t : option string) (v : View) : View :=
  if bool_decide (t = selectedTable v) then v
  else {| selectedTable := t; fields := []; filters := [];
          logical := logical v; orderBy := orderBy v; limit := limit v;
          offset := Binary64.of_Z 0 |}.

(** The render that follows the change of the prop [selectedTable] to
    [t], before the effect has run: the state cells are the old ones. *)
Definition rendered (t : option string) (v : View) : View :=
  {| selectedTable := t; fields := fields v; filters := filters v;
     logical := logical v; orderBy := orderBy v; limit := limit v;
     offset := offset v |}.

(** A string without the character [sep]; without a comma. *)
Definition sep_free (sep : ascii) (s : string) : Prop :=
  sep ∉ String.list_ascii_of_string s.

Definition comma_free (s : string) : Prop := sep_free "," s.

(** The operators that take one value: those in neither set that are
    not [between]. *)
Definition SCALAR_OPS : list FilterOp := [eq; neq; lt; lte; gt; gte; like].

Definition scalar_op (o : FilterOp) : bool := has SCALAR_OPS o.

(** A value of a clause that is the empty string or holds it. *)
Definition holds_empty (cv : clause_value) : Prop :=
  match cv with
  | Scalar x => x = VStr EmptyString
  | Array vs => VStr EmptyString ∈ vs
  end.

(** The value of a clause has the shape of its operator. *)
Definition well_shaped (c : FilterClause) : Prop :=
  match value c with
  | None => has NO_VALUE_OPS (op c) = true
  | Some (Array vs) =>
      (op c = between /\ length vs = 2%nat) \/
      (has ARRAY_VALUE_OPS (op c) = true /\ vs <> [])
  | Some (Scalar _) => scalar_op (op c) = true
  end.

End Handlers.

(** ** The backend client *)

Module Backend.

Import Byte.
Import ExportPipeline.

(** What [fetch] does: it rejects (the network failed), or resolves
    with a response that has a status and whatever the endpoint
    returns. *)
Inductive fetched (A : Type) : Type :=
| Rejected (message : option string)
| Responded (status : Z) (payload : A).
Arguments Rejected {A} message.
Arguments Responded {A} status payload.

(** [res.ok] *)
Definition ok (status : Z) : bool := (200 <=? status) && (status <=? 299).

(** [`${what} failed (${res.status})`] *)
Definition failed (what : string) (status : Z) : string :=
  what +:+ " failed (" +:+ show_Z status +:+ ")".

(** [streamData]: the payload is [res.body], absent or a stream given
    by its reads and its end. *)
Definition streamData (r : fetched (option (list (option bytes) * ending))) : response :=
  match r with
  | Rejected message => StreamFailed message
  | Responded status body =>
      match body with
      | Some (reads, last) =>
          if negb (ok status) then StreamFailed (Some (failed "Stream" status))
          else Stream reads last
      | None => StreamFailed (Some (failed "Stream" status))
      end
  end.

(** [encodeURIComponent] on code units below U+0100: the unreserved
    characters stay, the others become the percent-escapes of their
    UTF-8 bytes. *)
Definition unreserved (c : ascii) : bool :=
  let n := N_of_ascii c in
  ((65 <=? n) && (n <=? 90) || (97 <=? n) && (n <=? 122) || (48 <=? n) && (n <=? 57)
   || (n =? 45) || (n =? 95) || (n =? 46) || (n =? 33) || (n =? 126) || (n =? 42)
   || (n =? 39) || (n =? 40) || (n =? 41))%N.

Definition hex_digit (n : N) : ascii :=
  ascii_of_N (if (n <? 10)%N then 48 + n else 55 + n)%N.

Definition escape (byte : N) : string :=
  String "%" (String (hex_digit (byte / 16)) (String (hex_digit (byte mod 16)) EmptyString)).

Definition encode_unit (c : ascii) : string :=
  let n := N_of_ascii c in
  if unreserved c then String c EmptyString
  else if (n <? 128)%N then escape n
  else escape (192 + n / 64) +:+ escape (128 + n mod 64).

Fixpoint encodeURIComponent (s : string) : string :=
  match s with
  | EmptyString => EmptyString
  | String c r => encode_unit c +:+ encodeURIComponent r
  end.

(** The paths the client appends to the base URL. *)
Definition columnsPath (table : string) : string :=
  "/tables/" +:+ encodeURIComponent table +:+ "/columns".
Definition queryPath (table : string) : string :=
  "/tables/" +:+ encodeURIComponent table +:+ "/query".
Definition streamPath (table : string) : string :=
  "/tables/" +:+ encodeURIComponent table +:+ "/stream".

(** A character an escaped component is made of. *)
Definition url_safe (c : ascii) : bool :=
  unreserved c || Ascii.eqb c "%".

End Backend.

(** ** The configuration store *)

Module ConfigStore.

(** [s.replace(/\/?$/, the empty string)]: the pattern matches at the
    last character when that is a slash and at the end otherwise, so
    one slash at the end goes and nothing else. *)
Fixpoint dropSlash (s : string) : string :=
  match s with
  | EmptyString => EmptyString
  | String c EmptyString => if Ascii.eqb c "/" then EmptyString else s
  | String c r => String c (dropSlash r)
  end.

(** The value [setApiBaseUrl(url)] stores. *)
Definition setApiBaseUrl (url : string) : string := dropSlash (Js.trim url).

Fixpoint endsWith (c : ascii) (s : string) : bool :=
  match s with
  | EmptyString => false
  | String d EmptyString => Ascii.eqb d c
  | String _ r => endsWith c r
  end.

End ConfigStore.

(** ** Counting the lines of an export *)

Module ExportCounts.

Import Byte.
Import ExportPipeline.

(** The non-empty lines of a byte sequence. *)
Definition lines_of (bs : bytes) : nat :=
  length (filter (fun piece => piece <> []) (split_bytes nl bs)).

(** The counts the toast shows one after the other while [values]
    arrive, the count standing at [lines] before. *)
Fixpoint running (lines : nat) (values : list bytes) : list nat :=
  match values with
  | [] => []
  | value :: r => (lines + count_lines value)%nat :: running (lines + count_lines value) r
  end.

(** Successive elements never decrease. *)
Fixpoint ascending (l : list nat) : Prop :=
  match l with
  | a :: (b :: _) as r => (a <= b)%nat /\ ascending r
  | _ => True
  end.

End ExportCounts.

(** ** Times of the requests of a run *)

Module Schedule.

Import Controller.

(** The events come in the order of their times. *)
Fixpoint in_order (t0 : Z) (ts : list Z) : Prop :=
  match ts with
  | [] => True
  | t :: r => t0 <= t /\ in_order t r
  end.

(** Successive times lie at least [gap] apart. *)
Fixpoint spaced (gap : Z) (ts : list Z) : Prop :=
  match ts with
  | a :: (b :: _) as r => a + gap <= b /\ spaced gap r
  | _ => True
  end.

(** The times of the clicks of a run. *)
Definition clicks {D : Type} (evs : list (Z * event (D := D))) : list Z :=
  omap (fun te => match te.2 with RunQuery => Some te.1 | _ => None end) evs.

(** The times of the requests that [refetch()] sent. *)
Definition refetch_times {D : Type} (l : list (request (D := D))) : list Z :=
  map at_time (filter (fun r => is_refetch r = true) l).

(** The times of the calls of [refetch()]. *)
Definition call_times {D : Type} (s : state (D := D)) : list Z :=
  map fst (called s).

(** The timers of a state at time [now], [cs] being the clicks so far:
    none, every click having had its call; or the one of the latest
    click, all calls so far being older than that click. *)
Definition settled {D : Type} (s : state (D := D)) (now : Z) (cs : list Z) : Prop :=
  let R := call_times s in
  (1 <= Timers.next_id (window s))%nat /\
  spaced delay R /\
  Forall (fun t => exists tc, tc ∈ cs /\ t = tc + delay) R /\
  ((Timers.pending (window s) = [] /\ Forall (fun t => t <= now) R /\
    last R = (fun tc => tc + delay) <$> last cs /\ (length R <= length cs)%nat)
   \/
   (exists id tc,
       Timers.pending (window s) = [(id, tc + delay, tt)] /\ ref s = Some id /\
       id <> 0%nat /\ last cs = Some tc /\ tc <= now /\
       Forall (fun t => t <= tc) R /\ (length R < length cs)%nat)).

End Schedule.

(** ** The layout of the data grid *)

Module GridLayout.

(** [colWidths.reduce((a, b) => a + b, 0)] *)
Definition totalWidth (colWidths : list Z) : Z := foldl Z.add 0 colWidths.

End GridLayout.

(** ** The progress of an upload *)

Module UploadPanel.

Import DataGrid.
Local Open Scope Q_scope.

(** [x / y] on binary64 numbers. *)
Definition fdiv (x y : Q) : Q := rnd53 (x / y).

(** [progress]: the percentage the panel shows for a status message
    with the byte counts [uploaded] and [total], each absent or an
    integer (below [2^53], so exactly a binary64). A count that is
    absent or 0 is falsy. *)
Definition progress (uploaded total : option Z) : Z :=
  match uploaded, total with
  | Some u, Some t =>
      if (u =? 0)%Z || (t =? 0)%Z then 0%Z
      else Math_round (fmul (fdiv (inject_Z u) (inject_Z t)) 100)
  | _, _ => 0%Z
  end.

End UploadPanel.

(** * Properties *)

(** ** Strings *)

Section StringFacts.
Import Js.

Lemma trimStart_length s : (String.length (trimStart s) <= String.length s)%nat.
Proof. induction s as [|c r IH]; simpl; [lia|]. destruct (is_white_space c); simpl; lia. Qed.

Lemma trimStart_fixed c r :
  trimStart (String c r) = String c r -> is_white_space c = false.
Proof.
  simpl. destruct (is_white_space c); [|done].
  intros E. pose proof (trimStart_length r) as L. rewrite E in L. simpl in L. lia.
Qed.

Lemma trimStart_idem s : trimStart (trimStart s) = trimStart s.
Proof.
  induction s as [|c r IH]; [done|]. simpl.
  destruct (is_white_space c) eqn:W; [done|]. simpl. by rewrite W.
Qed.

Lemma trimEnd_idem s : trimEnd (trimEnd s) = trimEnd s.
Proof.
  induction s as [|c r IH]; [done|]. simpl.
  destruct (trimEnd r) as [|c' r'] eqn:E.
  - destruct (is_white_space c) eqn:W; [done|]. simpl. by rewrite W.
  - simpl. simpl in IH. by rewrite IH.
Qed.

Lemma trimEnd_keeps_head s :
  trimStart s = s -> trimStart (trimEnd s) = trimEnd s.
Proof.
  destruct s as [|c r]; [done|]. intros W%trimStart_fixed. simpl.
  destruct (trimEnd r); rewrite ?W; simpl; by rewrite W.
Qed.

(** Trimming a trimmed string changes nothing: the second trim that
    [Number] does inside [coerceType] is the identity. *)
Lemma trim_idem s : trim (trim s) = trim s.
Proof.
  unfold trim. rewrite (trimEnd_keeps_head (trimStart s) (trimStart_idem s)).
  apply trimEnd_idem.
Qed.

Lemma truthy_true s : truthy s = true <-> s <> EmptyString.
Proof. destruct s; simpl; split; congruence. Qed.

Lemma length_pos_truthy s : (0 <? String.length s)%nat = truthy s.
Proof. by destruct s. Qed.

Lemma Number_trim s : Number (trim s) = Number s.
Proof. unfold Number. by rewrite trim_idem. Qed.
End StringFacts.

(** ** Literal coercion *)

Section Coercion.
Import QueryView.

Lemma Number_samples :
  Js.Number "42" = Js.of_Z 42 /\
  Js.Number "42abc" = Js.NaN /\
  Js.Number "-1.5e3" = Js.Finite true 15 2 /\
  Js.Number "0x1F" = Js.of_Z 31 /\
  Js.Number ".5" = Js.Finite false 5 (-1) /\
  Js.Number "-Infinity" = Js.Infinity true /\
  Js.Number "1,5" = Js.NaN /\
  Js.Number "." = Js.NaN /\
  Js.Number "1e" = Js.NaN /\
  Js.Number "  7 " = Js.of_Z 7 /\
  Js.Number " " = Js.of_Z 0.
Proof. repeat split; reflexivity. Qed.

(** C1, as stated, fails on the empty string: [Number] of the empty
    string is 0 and not NaN, so [coerceType] returns the number 0 and
    not the empty string. *)
Lemma coerceType_empty_not_itself :
  coerceType EmptyString = Api.VNum (Js.of_Z 0) /\
  coerceType EmptyString <> Api.VStr EmptyString.
Proof. split; [reflexivity | discriminate]. Qed.

(** C1 (amended): [coerceType] returns exactly one of: the boolean,
    when the trimmed token is literally [true] or [false]; the number
    [Number] reads, when [Number] accepts the whole trimmed token;
    the trimmed token itself otherwise. [true], [false], [42] and
    [42abc] coerce to true, false, 42 and the string [42abc]; the
    empty token, and a token of white space only, coerce to the
    number 0. *)
Theorem coerceType_cases :
  (forall v : string,
      let t := Js.trim v in
      (t = "true" /\ coerceType v = Api.VBool true) \/
      (t = "false" /\ coerceType v = Api.VBool false) \/
      (t <> "true" /\ t <> "false" /\ Js.Number v <> Js.NaN /\
       coerceType v = Api.VNum (Js.Number v)) \/
      (t <> "true" /\ t <> "false" /\ Js.Number v = Js.NaN /\
       coerceType v = Api.VStr t)) /\
  coerceType "true" = Api.VBool true /\
  coerceType "false" = Api.VBool false /\
  coerceType "True" = Api.VStr "True" /\
  coerceType "42" = Api.VNum (Js.of_Z 42) /\
  coerceType "42abc" = Api.VStr "42abc" /\
  coerceType EmptyString = Api.VNum (Js.of_Z 0) /\
  (forall v : string, Js.trim v = EmptyString -> coerceType v = Api.VNum (Js.of_Z 0)).
Proof.
  split; [|repeat split; try reflexivity].
  - intros v t. unfold coerceType. fold t.
    rewrite <- (Number_trim v). fold t.
    destruct (String.eqb_spec t "true") as [->|N1]; [by left|].
    destruct (String.eqb_spec t "false") as [->|N2]; [by right; left|].
    right; right.
    destruct (Js.Number t) eqn:E; simpl; [right | left ..]; by repeat split.
  - intros v E. unfold coerceType. by rewrite E.
Qed.

(** A token of blanks: its trimmed form is empty. *)
Lemma coerceType_cases_witness :
  Js.trim "   " = EmptyString /\ coerceType "   " = Api.VNum (Js.of_Z 0).
Proof.
  split; [reflexivity|].
  apply (proj2 (proj2 (proj2 (proj2 (proj2 (proj2 (proj2 coerceType_cases))))))).
  reflexivity.
Defined.
End Coercion.

(** ** The filter compiler *)

Section FilterCompiler.
Import QueryView.

Lemma tokens_truthy raw :
  filter (fun s => Js.truthy s = true) (map Js.trim (Js.split "," raw)) = tokens raw.
Proof. unfold tokens. apply list_filter_iff. intros s. apply truthy_true. Qed.

Lemma tokens_length_pos raw :
  filter (fun s => (0 <? String.length s)%nat = true) (map Js.trim (Js.split "," raw))
  = tokens raw.
Proof.
  rewrite <- tokens_truthy. apply list_filter_iff. intros s.
  by rewrite length_pos_truthy.
Qed.

(** Every token is non-empty and has no white space around it. *)
Lemma tokens_trimmed raw :
  Forall (fun t => t <> EmptyString /\ Js.trim t = t) (tokens raw).
Proof.
  apply Forall_forall. intros t [Ht Hin]%list_elem_of_filter. split; [done|].
  apply list_elem_of_In, in_map_iff in Hin as (s & <- & _). apply trim_idem.
Qed.

Lemma compileRow_selected f col :
  row_column f = Some col -> col <> EmptyString ->
  compileRow f =
    let op := row_op f in
    let raw := default EmptyString (row_value f) in
    if has NO_VALUE_OPS op then Some (Api.mkClause col op None)
    else if bool_decide (op = Api.between) then
      if negb (length (tokens raw) =? 2)%nat then None
      else Some (Api.mkClause col op (Some (Api.Array (map coerceType (tokens raw)))))
    else if has ARRAY_VALUE_OPS op then
      if negb (0 <? length (tokens raw))%nat then None
      else Some (Api.mkClause col op (Some (Api.Array (map coerceType (tokens raw)))))
    else if negb (Js.truthy raw) then None
    else Some (Api.mkClause col op (Some (Api.Scalar (coerceType raw)))).
Proof.
  intros Hc Hne%truthy_true. unfold compileRow. rewrite Hc, Hne. simpl.
  by rewrite tokens_truthy, tokens_length_pos, length_map.
Qed.

(** C2: a row without a column is dropped whatever its operator.
    For a row with a column, the operator alone fixes the shape of
    the value: [is_null] and [is_not_null] give a clause without a
    value, whatever the row carries; [between] gives the two coerced
    tokens, in order, when the raw value has exactly two non-empty
    trimmed parts, and drops the row otherwise; [in] and [in_range]
    give the list of the coerced tokens, in order, and drop the row
    when there is none. The tokens of [a, b ,] are [a] and [b]. *)
Theorem compileRow_value_shape :
  (forall f, Js.truthy_opt (row_column f) = false -> compileRow f = None) /\
  (forall f col,
      row_column f = Some col -> col <> EmptyString ->
      let op := row_op f in
      let ts := tokens (default EmptyString (row_value f)) in
      (op = Api.is_null \/ op = Api.is_not_null ->
       compileRow f = Some (Api.mkClause col op None)) /\
      (op = Api.between ->
       (forall a b, ts = [a; b] ->
          compileRow f =
            Some (Api.mkClause col op (Some (Api.Array [coerceType a; coerceType b])))) /\
       (length ts <> 2%nat -> compileRow f = None)) /\
      (op = Api.in_ \/ op = Api.in_range ->
       (ts <> [] ->
          compileRow f = Some (Api.mkClause col op (Some (Api.Array (map coerceType ts))))) /\
       (ts = [] -> compileRow f = None))) /\
  (forall raw, Forall (fun t => t <> EmptyString /\ Js.trim t = t) (tokens raw)) /\
  tokens "a, b ," = ["a"; "b"] /\
  map coerceType (tokens "a, b ,") = [Api.VStr "a"; Api.VStr "b"].
Proof.
  split; [|split; [|split; [apply tokens_trimmed | split; reflexivity]]].
  - intros f H. unfold compileRow. destruct (row_column f) as [col|]; [|done].
    simpl in H. by rewrite H.
  - intros f col Hc Hne op ts. rewrite (compileRow_selected f col Hc Hne).
    fold op. cbv zeta. fold ts. split; [|split].
    + by intros [-> | ->].
    + intros ->. simpl. split.
      * intros a b E. by rewrite E.
      * intros L. by destruct (Nat.eqb_spec (length ts) 2).
    + intros Hop. assert (has NO_VALUE_OPS op = false /\ bool_decide (op = Api.between) = false
                          /\ has ARRAY_VALUE_OPS op = true) as (-> & -> & ->)
        by (by destruct Hop as [-> | ->]).
      split; [intros Hts | intros E; by rewrite E].
      by destruct ts.
Qed.

(** Rows of each class: [in] on [a, b ,], [between] on [1,5] and on
    [1,2,3], [is_null] with a stray value, and a row without a column. *)
Lemma compileRow_value_shape_witness :
  compileRow (mkRow (Some "tag") Api.in_ (Some "a, b ,"))
    = Some (Api.mkClause "tag" Api.in_ (Some (Api.Array [Api.VStr "a"; Api.VStr "b"]))) /\
  compileRow (mkRow (Some "age") Api.between (Some "1,5"))
    = Some (Api.mkClause "age" Api.between
              (Some (Api.Array [Api.VNum (Js.of_Z 1); Api.VNum (Js.of_Z 5)]))) /\
  compileRow (mkRow (Some "age") Api.between (Some "1,2,3")) = None /\
  compileRow (mkRow (Some "age") Api.is_null (Some "stray"))
    = Some (Api.mkClause "age" Api.is_null None) /\
  compileRow (mkRow None Api.is_null (Some "stray")) = None.
Proof.
  destruct compileRow_value_shape as (Hnone & Hsel & _).
  split; [|split; [|split; [|split]]].
  - refine (proj1 (proj2 (proj2 (Hsel (mkRow (Some "tag") Api.in_ (Some "a, b ,")) "tag"
                                      eq_refl _)) _) _);
      [discriminate | by left | discriminate].
  - refine (proj1 (proj1 (proj2 (Hsel (mkRow (Some "age") Api.between (Some "1,5")) "age"
                                      eq_refl _)) eq_refl) "1" "5" eq_refl).
    discriminate.
  - refine (proj2 (proj1 (proj2 (Hsel (mkRow (Some "age") Api.between (Some "1,2,3")) "age"
                                      eq_refl _)) eq_refl) _);
      [discriminate | vm_compute; discriminate].
  - refine (proj1 (Hsel (mkRow (Some "age") Api.is_null (Some "stray")) "age" eq_refl _) _);
      [discriminate | by left].
  - apply Hnone. reflexivity.
Defined.
End FilterCompiler.

(** ** The query descriptor *)

Section Descriptor.
Import QueryView.

(** C4: there is no descriptor exactly when no table is selected.
    In a descriptor, [order_by] is present exactly when a sort column
    is set, and [fields] is present exactly when the projection is
    not empty; it is then the projection, never an empty list. *)
Theorem queryBody_optional_parts (v : View) :
  (queryBody v = None <-> Js.truthy_opt (selectedTable v) = false) /\
  (forall q, queryBody v = Some q ->
     (is_Some (Api.order_by q) <-> Js.truthy_opt (sort_column (orderBy v)) = true) /\
     (is_Some (Api.fields q) <-> fields v <> []) /\
     Api.fields q <> Some [] /\
     (forall fs, Api.fields q = Some fs -> fs = fields v)).
Proof.
  unfold queryBody. destruct (Js.truthy_opt (selectedTable v)); simpl.
  - split; [done|]. intros q [= <-]. simpl. repeat split.
    + destruct (sort_column (orderBy v)) as [c|]; simpl; [|by intros [? ?]].
      destruct (Js.truthy c); [done | by intros [? ?]].
    + destruct (sort_column (orderBy v)) as [c|]; simpl; [|done].
      destruct (Js.truthy c); [done | done].
    + destruct (fields v); simpl; [by intros [? ?] | done].
    + destruct (fields v); simpl; [done | by eexists].
    + destruct (fields v); simpl; done.
    + intros fs. destruct (fields v); simpl; congruence.
  - split; [done|]. intros q. discriminate.
Qed.

(** A view with a table, a sort column and no projection. *)
Lemma queryBody_optional_parts_witness :
  let v := {| selectedTable := Some "orders"; fields := []; filters := [];
              logical := Api.AND; orderBy := mkOrderByState (Some "id") Api.asc;
              limit := Binary64.of_Z 100; offset := Binary64.of_Z 0 |} in
  let q := {| Api.filters := []; Api.logical_operator := Api.AND;
              Api.order_by := Some (Api.mkOrderBy "id" Api.asc);
              Api.limit := Binary64.of_Z 100; Api.offset := Binary64.of_Z 0;
              Api.fields := None |} in
  queryBody v = Some q /\
  (is_Some (Api.order_by q) <-> Js.truthy_opt (sort_column (orderBy v)) = true) /\
  (is_Some (Api.fields q) <-> fields v <> []).
Proof.
  intros v q. split; [reflexivity|].
  destruct (proj2 (queryBody_optional_parts v) q eq_refl) as (H1 & H2 & _).
  exact (conj H1 H2).
Defined.
End Descriptor.

(** ** The operator tokens *)

Section Operators.
Import QueryView.

Lemma accepts_listed s : Api.accepts s = true <-> s ∈ listed_tokens.
Proof.
  unfold Api.accepts, Api.of_token, listed_tokens.
  rewrite bool_decide_eq_true.
  repeat match goal with
         | |- context [String.eqb s ?t] =>
             destruct (String.eqb_spec s t) as [-> | ?];
             [split; [intros _; set_solver | intros _; by eexists] |]
         end.
  split; [by intros [? ?]|]. intros H.
  repeat (apply elem_of_cons in H as [-> | H]; [done|]). by apply elem_of_nil in H.
Qed.

(** C6, on the code: the union type accepts exactly the listed
    tokens, and the [OPS] of the view that compiles the filters
    offers exactly those, each once; the [OPS] declared in
    [src/components/QueryView.tsx] offers [contains], which the type
    does not accept, and offers none of [like], [in], [between],
    [in_range], [is_null], [is_not_null]. *)
Theorem OPS_against_FilterOp :
  (forall s, Api.accepts s = true <-> s ∈ listed_tokens) /\
  map Api.token OPS = listed_tokens /\
  (forall o : Api.FilterOp, o ∈ OPS) /\
  NoDup OPS /\
  "contains" ∈ OPS_components /\
  Api.accepts "contains" = false /\
  ("contains" ∉ listed_tokens) /\
  (filter (fun s => s ∉ OPS_components) listed_tokens)
    = ["like"; "in"; "between"; "in_range"; "is_null"; "is_not_null"].
Proof.
  split; [apply accepts_listed|]. split; [reflexivity|].
  split; [intros []; compute_done|].
  split; [compute_done|].
  split; [compute_done|].
  split; [reflexivity|].
  split; [compute_done | reflexivity].
Qed.
End Operators.

(** ** Editing the operator of a filter row *)

Section RowEdit.
Import QueryView.

(** C10: choosing an operator in row [idx] sets that row's operator,
    clears its value and keeps its column; the number of rows and all
    other rows stay as they are. *)
Theorem setRowOp_frame (arr : list FilterRow) (idx : nat) (newop : Api.FilterOp) :
  length (setRowOp idx newop arr) = length arr /\
  (forall it, arr !! idx = Some it ->
     setRowOp idx newop arr !! idx
     = Some {| row_column := row_column it; row_op := newop; row_value := None |}) /\
  (forall j, j <> idx -> setRowOp idx newop arr !! j = arr !! j).
Proof.
  unfold setRowOp. split; [apply length_imap|]. split.
  - intros it E. rewrite list_lookup_imap, E. simpl. by rewrite Nat.eqb_refl.
  - intros j Hj. rewrite list_lookup_imap.
    destruct (arr !! j); [|done]. simpl.
    by destruct (Nat.eqb_spec j idx).
Qed.

(** Two rows with typed values; the operator of the second changes. *)
Lemma setRowOp_frame_witness :
  let arr := [mkRow (Some "a") Api.eq (Some "1"); mkRow (Some "b") Api.like (Some "x%")] in
  setRowOp 1 Api.between arr !! 1%nat = Some (mkRow (Some "b") Api.between None) /\
  setRowOp 1 Api.between arr !! 0%nat = arr !! 0%nat.
Proof.
  intros arr.
  destruct (setRowOp_frame arr 1 Api.between) as (_ & H1 & H2). split.
  - apply (H1 (mkRow (Some "b") Api.like (Some "x%"))). reflexivity.
  - apply H2. lia.
Defined.
End RowEdit.

(** ** The streaming export *)

Section ExportFacts.
Import Byte.
Import QueryView ExportPipeline.

Lemma read_loop_spec reads : forall chunks lines log,
  read_loop reads chunks lines log
  = (chunks ++ received reads,
     (lines + sum_list (map count_lines (received reads)))%nat,
     log ++ updates lines (received reads)).
Proof.
  induction reads as [|[value|] r IH]; intros chunks lines log; simpl.
  - by rewrite !app_nil_r, Nat.add_0_r.
  - rewrite IH. unfold received. simpl.
    by rewrite <- !app_assoc, Nat.add_assoc.
  - apply IH.
Qed.

Lemma updates_no_download lines values :
  Forall (fun e => is_download e = false) (updates lines values).
Proof.
  revert lines. induction values as [|v r IH]; intros lines; simpl; [done|].
  constructor; [done | apply IH].
Qed.

Lemma queryBody_selected v table :
  selectedTable v = Some table -> table <> EmptyString -> is_Some (queryBody v).
Proof.
  intros E Hne%truthy_true. unfold queryBody. rewrite E. simpl. rewrite Hne.
  by eexists.
Qed.

(** *** Counting the records of a chunk *)

Lemma split_bytes_record r rest :
  nl ∉ r -> split_bytes nl (r ++ nl :: rest) = r :: split_bytes nl rest.
Proof.
  induction r as [|b r IH]; intros Hnl; simpl; [done|].
  destruct (Byte.eqb b nl) eqn:E.
  - apply Byte.byte_dec_bl in E. subst b. exfalso. apply Hnl. by left.
  - rewrite IH; [done|]. intros Hin. apply Hnl. by right.
Qed.

Lemma split_bytes_terminated recs :
  Forall (fun r => nl ∉ r) recs ->
  split_bytes nl (terminated recs) = recs ++ [[]].
Proof.
  induction 1 as [|r recs Hr _ IH]; [done|].
  unfold terminated in *. simpl. rewrite <- app_assoc. simpl.
  by rewrite split_bytes_record, IH.
Qed.

Lemma filter_all {A} (P : A -> Prop) `{!forall x, Decision (P x)} (l : list A) :
  Forall P l -> filter P l = l.
Proof.
  induction 1 as [|x l Hx _ IH]; [done|]. by rewrite filter_cons_True, IH.
Qed.

Lemma count_pieces_terminated recs :
  Forall (fun r => r <> [] /\ nl ∉ r) recs ->
  length (filter (fun piece => piece <> []) (split_bytes nl (terminated recs)))
  = length recs.
Proof.
  intros H.
  rewrite split_bytes_terminated by (eapply Forall_impl; [done | by intros ? []]).
  rewrite filter_app, filter_cons_False, filter_nil, app_nil_r by (intros N; by apply N).
  f_equal. apply filter_all. eapply Forall_impl; [done | by intros ? []].
Qed.

Lemma terminated_cons r recs : terminated (r :: recs) = r ++ nl :: terminated recs.
Proof. unfold terminated. simpl. by rewrite <- app_assoc. Qed.

(** Dropping the mark leaves a chunk of as many whole records. *)
Lemma strip_bom_terminated r recs :
  record_ok r ->
  exists r', strip_bom (terminated (r :: recs)) = terminated (r' :: recs)
             /\ r' <> [] /\ nl ∉ r'.
Proof.
  intros (Hne & Hbom & Hnl). rewrite terminated_cons.
  destruct r as [|b1 [|b2 [|b3 r']]]; [done | ..].
  - exists [b1]. split; [|done]. rewrite terminated_cons. simpl.
    destruct (terminated recs); [done|]. by destruct (Byte.eqb b1 xef).
  - exists [b1; b2]. split; [|done]. rewrite terminated_cons. simpl.
    by destruct (Byte.eqb b1 xef), (Byte.eqb b2 xbb).
  - simpl.
    destruct (Byte.eqb b1 xef) eqn:E1, (Byte.eqb b2 xbb) eqn:E2, (Byte.eqb b3 xbf) eqn:E3;
      simpl; try (exists (b1 :: b2 :: b3 :: r'); split; [by rewrite terminated_cons | done]).
    apply Byte.byte_dec_bl in E1, E2, E3. subst.
    exists r'. split; [by rewrite terminated_cons|]. split.
    + intros ->. by apply Hbom.
    + intros Hin. apply Hnl. by do 3 right.
Qed.

(** A chunk of whole records counts one line per record. *)
Lemma count_lines_terminated recs :
  Forall record_ok recs -> count_lines (terminated recs) = length recs.
Proof.
  intros H. unfold count_lines. destruct H as [|r recs Hr Hrecs]; [done|].
  destruct (strip_bom_terminated r recs Hr) as (r' & -> & Hne & Hnl).
  rewrite count_pieces_terminated; [done|].
  constructor; [done|]. eapply Forall_impl; [done|]. by intros ? (? & _ & ?).
Qed.

(** The count is a rough one: a piece without its newline counts as a
    line, so a record cut by a chunk boundary counts in both chunks. *)
Lemma count_lines_rough :
  count_lines [x61; x0a; x62] = 2%nat /\
  (count_lines [x61; x62] + count_lines [x63; x0a])%nat = 2%nat /\
  count_lines [x0a; x0a] = 0%nat.
Proof. repeat split; reflexivity. Qed.

(** C3: an export whose stream is read to its end makes one file.
    Its content is the chunks received, byte for byte, in the order
    they arrived; its name is the table, a dash, the clock reading in
    milliseconds and [.ndjson]; its type is [application/x-ndjson].
    The line count, made on the side, is reported by the last toast;
    for three chunks of two, one and no newline-terminated records
    it is three. *)
Theorem onExport_complete (s : Screen) (now : Z) (table : string)
    (reads : list (option bytes)) :
  selectedTable (view s) = Some table -> table <> EmptyString ->
  let lines := sum_list (map count_lines (received reads)) in
  onExport s now (Stream reads Done)
  = (s,
     Toast "Export started" (Some ("Streaming NDJSON" +:+ ellipsis)) false
       :: updates 0 (received reads)
       ++ [Download (table +:+ "-" +:+ show_Z now +:+ ".ndjson")
                    "application/x-ndjson" (concat (received reads));
           Toast "Export complete" (Some (show_nat lines +:+ " lines saved")) false]) /\
  (forall recs1 recs2 recs3,
      reads = [Some (terminated recs1); Some (terminated recs2); Some (terminated recs3)] ->
      Forall record_ok (recs1 ++ recs2 ++ recs3) ->
      length recs1 = 2%nat -> length recs2 = 1%nat -> length recs3 = 0%nat ->
      lines = 3%nat /\
      concat (received reads) = terminated recs1 ++ terminated recs2 ++ terminated recs3).
Proof.
  intros Ht Hne lines. split.
  - unfold onExport. destruct (queryBody_selected _ _ Ht Hne) as [q ->].
    rewrite Ht. apply truthy_true in Hne. rewrite Hne. simpl.
    by rewrite read_loop_spec.
  - intros recs1 recs2 recs3 -> Hok L1 L2 L3. unfold lines, received. simpl.
    apply Forall_app in Hok as [H1 Hok]. apply Forall_app in Hok as [H2 H3].
    rewrite !count_lines_terminated by done. rewrite L1, L2, L3.
    split; [done|]. by rewrite app_nil_r.
Qed.

(** Three chunks: two records, one record, none. *)
Lemma onExport_complete_witness :
  let s := mkScreen (initial (Some "orders")) None in
  let c1 := [x7b; x7d; x0a; x5b; x5d; x0a] in
  let c2 := [x31; x0a] in
  onExport s 1700000000000 (Stream [Some c1; Some c2; Some []] Done)
  = (s, [Toast "Export started" (Some ("Streaming NDJSON" +:+ ellipsis)) false;
         ToastUpdate ("Exporting" +:+ ellipsis) "2 lines";
         ToastUpdate ("Exporting" +:+ ellipsis) "3 lines";
         ToastUpdate ("Exporting" +:+ ellipsis) "3 lines";
         Download "orders-1700000000000.ndjson" "application/x-ndjson" (c1 ++ c2);
         Toast "Export complete" (Some "3 lines saved") false]) /\
  sum_list (map count_lines (received [Some c1; Some c2; Some []])) = 3%nat.
Proof.
  intros s c1 c2.
  assert (table_chosen : "orders" <> EmptyString) by discriminate.
  destruct (onExport_complete s 1700000000000 "orders"
              [Some c1; Some c2; Some []] eq_refl table_chosen) as [Hrun Hcount].
  split; [exact Hrun|].
  refine (proj1 (Hcount [[x7b; x7d]; [x5b; x5d]] [[x31]] [] eq_refl _ eq_refl eq_refl eq_refl)).
  repeat constructor; try discriminate;
    intros H; repeat (apply elem_of_cons in H as [H | H]; [discriminate|]);
    by apply elem_of_nil in H.
Defined.

(** C8: when the request for the stream fails, or a read of the
    stream fails, the export ends with the failure toast carrying the
    message of the error; nothing is downloaded, so no received chunk
    leaves the handler, and the screen, with the result of the
    paginated query, is as it was. *)
Theorem onExport_failure (s : Screen) (now : Z) (table : string)
    (resp : response) (message : option string) :
  selectedTable (view s) = Some table -> table <> EmptyString ->
  resp = StreamFailed message \/ (exists reads, resp = Stream reads (ReadFailed message)) ->
  (onExport s now resp).1 = s /\
  Forall (fun e => is_download e = false) (onExport s now resp).2 /\
  last (onExport s now resp).2 = Some (Toast "Export failed" message true).
Proof.
  intros Ht Hne Hresp. unfold onExport.
  destruct (queryBody_selected _ _ Ht Hne) as [q ->].
  rewrite Ht. apply truthy_true in Hne. rewrite Hne. simpl.
  destruct Hresp as [-> | [reads ->]].
  - simpl. repeat split; by repeat constructor.
  - rewrite read_loop_spec. simpl. split; [done|]. split.
    + constructor; [done|]. apply Forall_app. split; [|by repeat constructor].
      apply updates_no_download.
    + by rewrite app_comm_cons, last_snoc.
Qed.

(** A stream that breaks after two chunks, and a request that fails. *)
Lemma onExport_failure_witness :
  let s := mkScreen (initial (Some "orders")) (Some (mkResult [] 7)) in
  let broken := Stream [Some [x7b; x7d; x0a]; Some [x5b]] (ReadFailed (Some "network error")) in
  ((onExport s 0 broken).1 = s /\
   Forall (fun e => is_download e = false) (onExport s 0 broken).2 /\
   last (onExport s 0 broken).2 = Some (Toast "Export failed" (Some "network error") true)) /\
  (onExport s 0 (StreamFailed (Some "Stream failed (500)"))).2
  = [Toast "Export failed" (Some "Stream failed (500)") true].
Proof.
  intros s broken. split; [|reflexivity].
  apply (onExport_failure s 0 "orders" broken (Some "network error"));
    [reflexivity | discriminate | right; by eexists].
Defined.
End ExportFacts.

(** ** Debouncing of Run Query *)

Section Debounce.
Import Timers Controller Schedule QueryView.


Context {D : Type} `{EqDecision D}.
Variable enabled : D -> bool.

Lemma fetch_frame now cause cr d (s : state (D := D)) :
  current (fetch now cause cr d s) = current s /\
  ref (fetch now cause cr d s) = ref s /\
  window (fetch now cause cr d s) = window s /\
  called (fetch now cause cr d s) = called s.
Proof. unfold fetch. by destruct (_ && _). Qed.

Lemma fetch_issued now cause cr d (s : state (D := D)) :
  issued (fetch now cause cr d s)
  = issued s ++ (if fetching (cache s d) && negb (data (cache s d) && cr) then []
                 else [mkRequest now cause d]).
Proof. unfold fetch. destruct (_ && _); simpl; by rewrite ?app_nil_r. Qed.

Lemma fetch_cache_other now cause cr d d' (s : state (D := D)) :
  d' <> d -> cache (fetch now cause cr d s) d' = cache s d'.
Proof.
  intros Hne. unfold fetch. destruct (_ && _); [done|]. simpl.
  unfold store. by rewrite bool_decide_eq_false_2.
Qed.

Lemma refetch_frame (s : state (D := D)) (t : Z * unit) :
  current (refetch s t) = current s /\
  ref (refetch s t) = ref s /\
  window (refetch s t) = window s /\
  called (refetch s t) = called s ++ [(t.1, current s)] /\
  issued (refetch s t)
  = issued s ++ (if joins (cache s (current s)) then []
                 else [mkRequest t.1 Refetch (current s)]).
Proof.
  unfold refetch.
  destruct (fetch_frame t.1 Refetch true (current s)
              {| current := current s; ref := ref s; window := window s;
                 cache := cache s; called := called s ++ [(t.1, current s)];
                 issued := issued s |}) as (H1 & H2 & H3 & H4).
  rewrite fetch_issued. simpl in *. rewrite andb_true_r. done.
Qed.

Lemma refetch_cache_other (s : state (D := D)) (t : Z * unit) (d : D) :
  d <> current s -> cache (refetch s t) d = cache s d.
Proof. intros Hne. unfold refetch. by rewrite fetch_cache_other. Qed.

Lemma refetches_frame (due : list (Z * unit)) : forall s : state (D := D),
  let s' := foldl refetch s due in
  current s' = current s /\ ref s' = ref s /\ window s' = window s /\
  called s' = called s ++ map (fun t => (t.1, current s)) due /\
  (forall d, d <> current s -> cache s' d = cache s d) /\
  issued s `prefix_of` issued s'.
Proof.
  induction due as [|t due IH]; intros s; simpl.
  - by rewrite app_nil_r.
  - destruct (refetch_frame s t) as (H1 & H2 & H3 & H4 & H5).
    destruct (IH (refetch s t)) as (I1 & I2 & I3 & I4 & I5 & I6).
    rewrite I1, I2, I3, I4, H1, H2, H3, H4, <- app_assoc.
    repeat split; try done.
    + intros d Hd. rewrite I5 by by rewrite H1. by apply refetch_cache_other.
    + etrans; [|exact I6]. rewrite H5. by apply prefix_app_r.
Qed.

Lemma advance_frame now (s : state (D := D)) :
  current (advance now s) = current s /\ ref (advance now s) = ref s /\
  window (advance now s) = (fire now (window s)).2 /\
  called (advance now s)
  = called s ++ map (fun t => (t.1, current s)) (fire now (window s)).1 /\
  (forall d, d <> current s -> cache (advance now s) d = cache s d) /\
  issued s `prefix_of` issued (advance now s).
Proof.
  unfold advance. destruct (fire now (window s)) as [due w] eqn:E.
  apply (refetches_frame due
           {| current := current s; ref := ref s; window := w; cache := cache s;
              called := called s; issued := issued s |}).
Qed.



Lemma handle_frame now e (s : state (D := D)) :
  called (handle enabled now e s) = called s /\
  issued s `prefix_of` issued (handle enabled now e s) /\
  filter (fun q => is_refetch q = true) (issued (handle enabled now e s))
  = filter (fun q => is_refetch q = true) (issued s) /\
  current (handle enabled now e s) = match e with Change d => d | _ => current s end /\
  match e with
  | RunQuery => True
  | _ => ref (handle enabled now e s) = ref s /\ window (handle enabled now e s) = window s
  end.
Proof.
  destruct e as [d| |d|d]; simpl.
  - destruct (enabled d && negb (bool_decide (d = current s))); [|done].
    match goal with |- context [fetch ?n ?c ?r ?k ?st] =>
      destruct (fetch_frame n c r k st) as (H1 & H2 & H3 & H4);
      rewrite (fetch_issued n c r k st)
    end.
    simpl in *. repeat split; try done.
    + by apply prefix_app_r.
    + rewrite filter_app. destruct (_ && _); simpl; [by rewrite app_nil_r|].
      rewrite filter_cons_False by done. by rewrite app_nil_r.
  - unfold useDebouncedCallback, setTimeout. simpl. done.
  - by destruct (fetching (cache s d)).
  - by destruct (bool_decide (d = current s) || fetching (cache s d)).
Qed.






End Debounce.


(** ** Column widths *)

Section ColumnWidths.
Import DataGrid.
Local Open Scope Q_scope.

(** *** The sample *)

Lemma maxLen_step (m len : nat) : (if (m <? len)%nat then len else m) = Nat.max m len.
Proof. destruct (Nat.ltb_spec m len); lia. Qed.

Lemma loop_over_rows c rows : forall (n k acc : nat),
  (k + n <= length rows)%nat ->
  foldl (fun maxLen i =>
           let len := String.length (cell_text rows i c) in
           if (maxLen <? len)%nat then len else maxLen) acc (seq k n)
  = Nat.max acc (max_list_with (fun row => String.length (row_text row c))
                               (take n (drop k rows))).
Proof.
  induction n as [|n IH]; intros k acc Hk; simpl.
  - lia.
  - destruct (lookup_lt_is_Some_2 rows k) as [row Hrow]; [lia|].
    rewrite (drop_S _ _ _ Hrow). simpl.
    rewrite IH by lia. unfold cell_text. rewrite Hrow, maxLen_step. lia.
Qed.

(** The loop keeps the largest of the header length and the text
    lengths of the first 100 rows. *)
Lemma maxLen_sample c rows :
  maxLen c rows
  = Nat.max (String.length c)
            (max_list_with (fun row => String.length (row_text row c)) (take 100 rows)).
Proof.
  unfold maxLen, sampleCount. rewrite loop_over_rows by lia.
  rewrite drop_0. f_equal. f_equal.
  destruct (Nat.le_ge_cases 100 (length rows)).
  - by rewrite Nat.min_l.
  - rewrite Nat.min_r by done. by rewrite !take_ge by lia.
Qed.

Lemma maxLen_short c rows (bound : nat) :
  (String.length c <= bound)%nat ->
  Forall (fun row => (String.length (row_text row c) <= bound)%nat) (take 100 rows) ->
  (maxLen c rows <= bound)%nat.
Proof.
  intros Hc Hrows. rewrite maxLen_sample. apply Nat.max_lub; [done|].
  induction Hrows as [|row l Hrow _ IH]; simpl; lia.
Qed.

(** *** The clamp *)

Lemma Math_max_bounds a b : a <= Math_max a b /\ b <= Math_max a b.
Proof.
  unfold Math_max. destruct (Qle_bool a b) eqn:E.
  - apply Qle_bool_iff in E. split; [done | apply Qle_refl].
  - split; [apply Qle_refl|]. apply Qlt_le_weak, Qnot_le_lt.
    intros N%Qle_bool_iff. congruence.
Qed.

Lemma clamp_bounds (x : Q) :
  min <= Math_min max (Math_max min x) /\ Math_min max (Math_max min x) <= max.
Proof.
  unfold Math_min. destruct (Qle_bool max (Math_max min x)) eqn:E.
  - split; [done | apply Qle_refl].
  - split; [apply Math_max_bounds|].
    apply Qlt_le_weak, Qnot_le_lt. intros N%Qle_bool_iff. congruence.
Qed.

Lemma width_of_len_bounds len : (140 <= width_of_len len <= 420)%Z.
Proof.
  unfold width_of_len, Math_round.
  destruct (clamp_bounds (estimate len)) as [Hlo Hhi].
  split.
  - change 140%Z with (Qfloor (min + (1 # 2))).
    apply Qfloor_resp_le, Qplus_le_l, Hlo.
  - change 420%Z with (Qfloor (max + (1 # 2))).
    apply Qfloor_resp_le, Qplus_le_l, Hhi.
Qed.

(** Up to 17 characters the estimate stays below the minimum. *)
Lemma width_of_len_short len : (len <= 17)%nat -> width_of_len len = 140%Z.
Proof.
  intros H.
  do 18 (destruct len as [|len]; [vm_compute; reflexivity|]). lia.
Qed.

Lemma width_of_len_over len : max < estimate len -> width_of_len len = 420%Z.
Proof.
  intros H. unfold width_of_len.
  assert (Math_max min (estimate len) = estimate len) as ->.
  { unfold Math_max.
    destruct (Qle_bool min (estimate len)) eqn:E; [done|].
    exfalso. assert (min <= estimate len) as N%Qle_bool_iff; [|congruence].
    apply Qlt_le_weak. eapply Qlt_trans; [|exact H]. reflexivity. }
  unfold Math_min.
  assert (Qle_bool max (estimate len) = true) as ->
    by (by apply Qle_bool_iff, Qlt_le_weak).
  reflexivity.
Qed.

Lemma round_to_even_floor y : (Qfloor y <= round_to_even y)%Z.
Proof.
  unfold round_to_even.
  destruct (Qcompare (y - inject_Z (Qfloor y)) (1 # 2)); [destruct (Z.even _)|..]; lia.
Qed.

Lemma two_power_pos z : 0 < Qpower 2 z.
Proof. by apply Qpower_0_lt. Qed.

Lemma two_power_Z (k : Z) : (0 <= k)%Z -> Qpower 2 k == inject_Z (2 ^ k).
Proof. intros Hk. symmetry. by apply (Zpower_Qpower 2). Qed.

Lemma inject_Z_pos (z : Z) : (0 < z)%Z -> 0 < inject_Z z.
Proof. intros H. unfold Qlt. simpl. lia. Qed.

Lemma binade_le x : 0 < x -> Qpower 2 (binade x) <= x.
Proof.
  intros Hx. unfold binade.
  destruct (Qle_bool _ x) eqn:E; [by apply Qle_bool_iff|]. clear E.
  destruct x as [a b]. assert (0 < a)%Z as Ha by (unfold Qlt in Hx; simpl in Hx; lia).
  simpl Qnum. simpl Qden.
  destruct (Z.log2_spec a Ha) as [Hla _].
  destruct (Z.log2_spec (Zpos b) eq_refl) as [_ Hlb].
  pose proof (Z.log2_nonneg a) as Hla0. pose proof (Z.log2_nonneg (Zpos b)) as Hlb0.
  replace (Z.log2 a - Z.log2 (Zpos b) - 1)%Z with (Z.log2 a - Z.succ (Z.log2 (Zpos b)))%Z by lia.
  rewrite Qpower_minus by done.
  rewrite !two_power_Z by lia.
  rewrite Qmake_Qdiv.
  apply Qle_shift_div_l; [by apply inject_Z_pos|].
  apply Qle_trans with (inject_Z (2 ^ Z.log2 a)); [|by rewrite <- Zle_Qle].
  assert (0 < inject_Z (2 ^ Z.succ (Z.log2 (Z.pos b)))) as Hp by (apply inject_Z_pos; lia).
  assert (0 <= inject_Z (2 ^ Z.log2 a)) as Hq by (apply Qlt_le_weak, inject_Z_pos; lia).
  assert (inject_Z (Zpos b) <= inject_Z (2 ^ Z.succ (Z.log2 (Z.pos b)))) as Hb
    by (rewrite <- Zle_Qle; lia).
  unfold Qdiv. rewrite <- Qmult_assoc.
  rewrite <- (Qmult_1_r (inject_Z (2 ^ Z.log2 a))) at 2.
  apply Qmult_le_compat_nonneg; [split; [done | apply Qle_refl]|]. split.
  - apply Qmult_le_0_compat; [apply Qlt_le_weak, Qinv_lt_0_compat, Hp|].
    apply Qlt_le_weak. by apply inject_Z_pos.
  - rewrite Qmult_comm. apply Qle_shift_div_r; [done|]. by rewrite Qmult_1_l.
Qed.

Lemma rnd53_lower x : 0 < x -> x - x * eps52 <= rnd53 x.
Proof.
  intros Hx. unfold rnd53.
  destruct x as [a b]. assert (0 < a)%Z as Ha by (unfold Qlt in Hx; simpl in Hx; lia).
  destruct a as [|p|p]; [lia | | lia]. simpl Qnum. cbv iota.
  set (x := Zpos p # b) in *. set (u := (binade x - 52)%Z).
  rewrite Qred_correct.
  pose proof (two_power_pos u) as Hu.
  assert (Qpower 2 u <= x * eps52) as Hulp.
  { unfold u. rewrite Qpower_minus by done.
    unfold Qdiv. apply Qmult_le_compat_nonneg.
    - split; [apply Qlt_le_weak, two_power_pos | by apply binade_le].
    - split; [done | apply Qle_refl]. }
  assert (x / Qpower 2 u - 1 <= inject_Z (round_to_even (x / Qpower 2 u))) as Hr.
  { apply Qle_trans with (inject_Z (Qfloor (x / Qpower 2 u))).
    - pose proof (Qlt_floor (x / Qpower 2 u)) as Hf.
      rewrite inject_Z_plus in Hf. apply Qlt_le_weak.
      apply (Qplus_lt_l _ _ 1).
      assert (x / Qpower 2 u - 1 + 1 == x / Qpower 2 u) as -> by ring.
      exact Hf.
    - rewrite <- Zle_Qle. apply round_to_even_floor. }
  apply Qle_trans with ((x / Qpower 2 u - 1) * Qpower 2 u).
  - assert ((x / Qpower 2 u - 1) * Qpower 2 u == x - Qpower 2 u) as ->
      by (field; intros N; rewrite N in Hu; by apply Qlt_irrefl in Hu).
    unfold Qminus. apply Qplus_le_r. by apply Qopp_le_compat.
  - apply Qmult_le_compat_r; [done | by apply Qlt_le_weak].
Qed.

Lemma rnd53_above (x low : Q) :
  0 < low -> low <= x -> low * (1 - eps52) <= rnd53 x.
Proof.
  intros Hlow Hx.
  apply Qle_trans with (x - x * eps52).
  - assert (x - x * eps52 == x * (1 - eps52)) as -> by ring.
    by apply Qmult_le_compat_r.
  - apply rnd53_lower. by apply Qlt_le_trans with low.
Qed.

(** From 76 characters on the estimate is above the maximum. *)
Lemma estimate_over len : (76 <= len)%nat -> max < estimate len.
Proof.
  intros H. unfold estimate, fmul.
  assert (608 <= inject_Z (Z.of_nat len) * charPx) as H1.
  { change 608 with (inject_Z 76 * charPx).
    apply Qmult_le_compat_r; [|done]. rewrite <- Zle_Qle. lia. }
  pose proof (rnd53_above _ 608 eq_refl H1) as H2.
  assert (608 * (1 - eps52) * lit_0_7 <= rnd53 (inject_Z (Z.of_nat len) * charPx) * lit_0_7)
    as H3 by (by apply Qmult_le_compat_r).
  assert (0 < 608 * (1 - eps52) * lit_0_7) as H0 by reflexivity.
  pose proof (rnd53_above _ _ H0 H3) as H4.
  eapply Qlt_le_trans; [|exact H4]. reflexivity.
Qed.

(** The binary64 arithmetic and the final rounding give, for every
    length, what exact arithmetic gives: 5.6 times the length, rounded
    to the nearest integer and clamped to 140..420. *)
Lemma width_of_len_exact len :
  width_of_len len = Z.max 140 (Z.min 420 ((56 * Z.of_nat len + 5) / 10)).
Proof.
  destruct (le_lt_dec 76 len) as [Hbig | Hsmall].
  - rewrite (width_of_len_over len (estimate_over len Hbig)).
    assert (420 <= (56 * Z.of_nat len + 5) / 10)%Z
      by (apply Z.div_le_lower_bound; lia).
    lia.
  - do 76 (destruct len as [|len]; [vm_compute; reflexivity|]). lia.
Qed.

(** The minimum is kept up to 25 characters: the bound of 17.5 is met
    with room to spare. *)
Lemma width_of_len_threshold :
  width_of_len 25 = 140%Z /\ width_of_len 26 = 146%Z /\
  width_of_len 74 = 414%Z /\ width_of_len 75 = 420%Z.
Proof. repeat split; vm_compute; reflexivity. Qed.

(** On every length below 2048 the estimate is the product that the
    binary64 multiplication of the standard library gives. *)
Lemma estimate_is_binary64 (len : nat) :
  (len < 2048)%nat ->
  exists q, Q_of_b64 (b64_estimate len) = Some q /\ q == estimate len.
Proof.
  intros H.
  assert (forallb estimate_agrees (seq 0 2048) = true) as Hall
    by (vm_compute; reflexivity).
  rewrite forallb_forall in Hall.
  specialize (Hall len). unfold estimate_agrees in Hall.
  destruct (Q_of_b64 (b64_estimate len)) as [q|].
  - exists q. split; [done|]. apply Qeq_bool_iff, Hall, in_seq. lia.
  - discriminate Hall. apply in_seq. lia.
Qed.

(** C7: the widths are those of the first 100 rows alone. The width
    of a column is the rounded clamp, to 140..420, of the binary64
    product of three factors: the largest of the header length and
    the text lengths of the sampled values, 8 and 0.7; that is 5.6
    times that length, rounded and clamped. It lies between 140 and
    420. It is 140 for the column [id] when every sampled value is
    shorter than 17.5 characters, and 420 when the product is above
    420. *)
Theorem useColumnWidths_sampled (columns : list string) (rows : list (option Api.Row)) :
  useColumnWidths columns rows = useColumnWidths columns (take 100 rows) /\
  (forall i c,
      columns !! i = Some c ->
      let len :=
        Nat.max (String.length c)
                (max_list_with (fun row => String.length (row_text row c)) (take 100 rows)) in
      exists w,
        useColumnWidths columns rows !! i = Some w /\
        w = Math_round (Math_min max (Math_max min (estimate len))) /\
        w = Z.max 140 (Z.min 420 ((56 * Z.of_nat len + 5) / 10)) /\
        (140 <= w <= 420)%Z /\
        (c = "id" ->
         Forall (fun row => (2 * Z.of_nat (String.length (row_text row c)) < 35)%Z)
                (take 100 rows) ->
         w = 140%Z) /\
        (max < estimate len -> w = 420%Z)).
Proof.
  split.
  - unfold useColumnWidths. apply map_ext. intros c.
    by rewrite !maxLen_sample, take_take.
  - intros i c Hc len. exists (width_of_len (maxLen c rows)).
    assert (maxLen c rows = len) as Hlen by apply maxLen_sample.
    split; [|split; [|split; [|split; [|split]]]].
    + unfold useColumnWidths.
      change (map ?f columns) with (f <$> columns).
      by rewrite list_lookup_fmap, Hc.
    + by rewrite Hlen.
    + rewrite Hlen. apply width_of_len_exact.
    + apply width_of_len_bounds.
    + intros -> Hshort. apply width_of_len_short, maxLen_short; [simpl; lia|].
      eapply Forall_impl; [exact Hshort|]. intros row Hrow. simpl in Hrow. lia.
    + rewrite Hlen. apply width_of_len_over.
Qed.
End ColumnWidths.

(** A page of three rows, one of them [null]: the column [id] has short
    values, the column [note] a value of 88 characters. *)
Lemma useColumnWidths_sampled_witness :
  let long := "0123456789012345678901234567890123456789012345678901234567890123456789012345678901234567" in
  let rows : list (option Api.Row) :=
    [Some (<["id" := "1"]> (<["note" := long]> ∅)); None; Some (<["id" := "22"]> ∅)] in
  let columns := ["id"; "note"] in
  DataGrid.useColumnWidths columns rows !! 0%nat = Some 140 /\
  DataGrid.useColumnWidths columns rows !! 1%nat = Some 420.
Proof.
  intros long rows columns.
  destruct (useColumnWidths_sampled columns rows) as [_ Hcol]. split.
  - destruct (Hcol 0%nat "id" eq_refl) as (w & Hw & _ & _ & _ & Hid & _).
    rewrite Hw. f_equal. apply Hid; [reflexivity|].
    repeat (constructor; [vm_compute; reflexivity|]). constructor.
  - destruct (Hcol 1%nat "note" eq_refl) as (w & Hw & _ & _ & _ & _ & Hover).
    rewrite Hw. f_equal. apply Hover. vm_compute. reflexivity.
Defined.

(** * Further properties of the code *)

(** ** Coercion and compilation *)

Section CompilerFacts.
Import QueryView Handlers.

Lemma coerceType_VStr (v s : string) :
  coerceType v = Api.VStr s ->
  s = Js.trim v /\ s <> EmptyString /\ Js.trim s = s /\
  s <> "true" /\ s <> "false" /\ Js.Number s = Js.NaN.
Proof.
  unfold coerceType.
  destruct (String.eqb_spec (Js.trim v) "true") as [|N1]; [done|].
  destruct (String.eqb_spec (Js.trim v) "false") as [|N2]; [done|].
  destruct (Js.Number (Js.trim v)) eqn:E; simpl; [|done..].
  intros [= <-]. repeat split; try done.
  - intros E0. rewrite E0 in E. discriminate E.
  - apply trim_idem.
Qed.

Lemma coerceType_trim v : coerceType (Js.trim v) = coerceType v.
Proof. unfold coerceType. by rewrite !trim_idem. Qed.

Lemma coerceType_not_empty v : coerceType v <> Api.VStr EmptyString.
Proof. intros E. by destruct (coerceType_VStr v _ E) as (_ & N & _). Qed.

(** X1: a string that [coerceType] returns is the trimmed token; it is
    not empty, not [true] or [false], and [Number] rejects it. White
    space around the token makes no difference to the result. *)
Theorem coerceType_string (v s : string) :
  coerceType v = Api.VStr s ->
  s = Js.trim v /\ s <> EmptyString /\ Js.trim s = s /\
  s <> "true" /\ s <> "false" /\ Js.Number s = Js.NaN /\
  coerceType (Js.trim v) = coerceType v.
Proof.
  intros E. destruct (coerceType_VStr v s E) as (H1 & H2 & H3 & H4 & H5 & H6).
  repeat split; try done. apply coerceType_trim.
Qed.

Lemma coerceType_string_witness :
  coerceType " 12px " = Api.VStr "12px" /\ Js.Number "12px" = Js.NaN.
Proof.
  split; [reflexivity|].
  exact (proj1 (proj2 (proj2 (proj2 (proj2 (proj2
           (coerceType_string " 12px " "12px" eq_refl))))))).
Defined.

Lemma scalar_op_other o :
  scalar_op o = true <->
  has NO_VALUE_OPS o = false /\ o <> Api.between /\ has ARRAY_VALUE_OPS o = false.
Proof. destruct o; compute; intuition congruence. Qed.

(** X2: a row with a column and a one-value operator is dropped
    exactly when its raw value is missing or empty; otherwise its
    value is the coerced raw value. The test is on the raw value, the
    coercion on the trimmed one: a value of white space only is kept
    and compiles to the number 0. *)
Theorem compileRow_scalar (f : FilterRow) (col : string) :
  row_column f = Some col -> col <> EmptyString -> scalar_op (row_op f) = true ->
  let raw := default EmptyString (row_value f) in
  (raw = EmptyString -> compileRow f = None) /\
  (raw <> EmptyString ->
   compileRow f = Some (Api.mkClause col (row_op f) (Some (Api.Scalar (coerceType raw))))) /\
  (raw <> EmptyString -> Js.trim raw = EmptyString ->
   compileRow f
   = Some (Api.mkClause col (row_op f) (Some (Api.Scalar (Api.VNum (Js.of_Z 0)))))).
Proof.
  intros Hc Hne (H1 & H2 & H3)%scalar_op_other raw.
  rewrite (compileRow_selected f col Hc Hne). cbv zeta. fold raw.
  rewrite H1, H3, (bool_decide_eq_false_2 _ H2).
  assert (raw <> EmptyString ->
          (if negb (Js.truthy raw) then None
           else Some (Api.mkClause col (row_op f) (Some (Api.Scalar (coerceType raw)))))
          = Some (Api.mkClause col (row_op f) (Some (Api.Scalar (coerceType raw))))) as Hraw
    by (by intros ->%truthy_true).
  split; [by intros -> | split; [done|]].
  intros Hr Ht. rewrite Hraw by done. unfold coerceType. by rewrite Ht.
Qed.

Lemma compileRow_scalar_witness :
  compileRow (mkRow (Some "age") Api.gte (Some "  "))
  = Some (Api.mkClause "age" Api.gte (Some (Api.Scalar (Api.VNum (Js.of_Z 0))))) /\
  compileRow (mkRow (Some "age") Api.gte None) = None.
Proof.
  split.
  - refine (proj2 (proj2 (compileRow_scalar (mkRow (Some "age") Api.gte (Some "  ")) "age"
                            eq_refl _ eq_refl)) _ eq_refl); discriminate.
  - refine (proj1 (compileRow_scalar (mkRow (Some "age") Api.gte None) "age"
                     eq_refl _ eq_refl) eq_refl). discriminate.
Defined.

Lemma compileRow_Some f c :
  compileRow f = Some c ->
  row_column f = Some (Api.column c) /\ Api.column c <> EmptyString /\
  Api.op c = row_op f /\ well_shaped c /\
  (forall cv, Api.value c = Some cv -> ~ holds_empty cv).
Proof.
  intros E.
  destruct (row_column f) as [col|] eqn:Hc; [|by unfold compileRow in E; rewrite Hc in E].
  destruct (Js.truthy col) eqn:Ht;
    [|by unfold compileRow in E; rewrite Hc, Ht in E].
  pose proof (proj1 (truthy_true col) Ht) as Hne.
  rewrite (compileRow_selected f col Hc Hne) in E. cbv zeta in E.
  pose proof (tokens_trimmed (default EmptyString (row_value f))) as Htok.
  assert (Api.VStr EmptyString ∉ map coerceType (tokens (default EmptyString (row_value f))))
    as Harr.
  { intros (t & Et & _)%list_elem_of_In%in_map_iff. by apply coerceType_not_empty in Et. }
  destruct (has NO_VALUE_OPS (row_op f)) eqn:H1.
  { injection E as <-. by repeat split. }
  destruct (bool_decide (row_op f = Api.between)) eqn:H2.
  { apply bool_decide_eq_true in H2.
    destruct (Nat.eqb_spec (length (tokens (default EmptyString (row_value f)))) 2)
      as [L|]; [|done].
    injection E as <-. repeat split; try done.
    - left. by rewrite length_map.
    - by intros cv [= <-]. }
  apply bool_decide_eq_false in H2.
  destruct (has ARRAY_VALUE_OPS (row_op f)) eqn:H3.
  { destruct (tokens (default EmptyString (row_value f))) as [|t ts] eqn:Ets; [done|].
    injection E as <-. repeat split; try done.
    - by right.
    - by intros cv [= <-]. }
  destruct (Js.truthy (default EmptyString (row_value f))); [|done].
  injection E as <-. repeat split; try done.
  - by apply scalar_op_other.
  - intros cv [= <-]. apply coerceType_not_empty.
Qed.

(** X3: every clause of every descriptor names a column, has the value
    shape of its operator (no value for [is_null] and [is_not_null],
    two elements for [between], a non-empty list for [in] and
    [in_range], one value for the others), and no value is or holds
    the empty string. *)
Theorem queryBody_clauses (v : View) (q : Api.QueryBody) :
  queryBody v = Some q ->
  Forall (fun c => Api.column c <> EmptyString /\ well_shaped c /\
                   forall cv, Api.value c = Some cv -> ~ holds_empty cv)
         (Api.filters q).
Proof.
  unfold queryBody. destruct (Js.truthy_opt (selectedTable v)); [|done].
  intros [= <-]. simpl. apply Forall_forall. intros c Hc.
  apply list_elem_of_omap in Hc as (f & _ & Hf).
  by destruct (compileRow_Some f c Hf) as (_ & ? & _ & ? & ?).
Qed.

Lemma queryBody_clauses_witness :
  let v := Handlers.withFilters
             [mkRow (Some "tag") Api.in_ (Some "a, ,b"); mkRow (Some "n") Api.between (Some "1,")]
             (initial (Some "orders")) in
  exists q, queryBody v = Some q /\
    Api.filters q
    = [Api.mkClause "tag" Api.in_ (Some (Api.Array [Api.VStr "a"; Api.VStr "b"]))] /\
    Forall (fun c => Api.column c <> EmptyString /\ well_shaped c /\
                     forall cv, Api.value c = Some cv -> ~ holds_empty cv)
           (Api.filters q).
Proof.
  intros v. eexists. split; [reflexivity|]. split; [reflexivity|].
  exact (queryBody_clauses v _ eq_refl).
Defined.

(** X4: the rows compile one by one: the clauses of two lists of rows
    put together are the clauses of the first followed by those of the
    second; there are never more clauses than rows, and the clauses
    keep the order, the columns and the operators of the rows they
    come from. *)
Theorem processed_rows :
  (forall a b, processed (a ++ b) = processed a ++ processed b) /\
  (forall rows, (length (processed rows) <= length rows)%nat) /\
  (forall rows,
      sublist (map (fun c => (Some (Api.column c), Api.op c)) (processed rows))
              (map (fun f => (row_column f, row_op f)) rows)).
Proof.
  split; [intros a b; apply omap_app|]. split.
  - induction rows as [|f rows IH]; simpl; [lia|].
    unfold processed in *. simpl. destruct (compileRow f); simpl; lia.
  - induction rows as [|f rows IH]; simpl; [constructor|].
    unfold processed in *. simpl. destruct (compileRow f) as [c|] eqn:E; simpl.
    + destruct (compileRow_Some f c E) as (-> & _ & -> & _). by constructor.
    + by constructor.
Qed.
End CompilerFacts.

(** ** Editing the filter rows *)

Section RowFacts.
Import QueryView Handlers.

Lemma removeRow_from (idx : nat) (arr : list FilterRow) : forall k,
  (filter (fun p => p.1 <> idx) (imap (fun i it => ((k + i)%nat, it)) arr)).*2
  = if decide (k <= idx)%nat then delete (idx - k)%nat arr else arr.
Proof.
  induction arr as [|x l IH]; intros k; [by destruct (decide _)|].
  rewrite imap_cons.
  rewrite (imap_ext _ (fun i it => ((S k + i)%nat, it))) by (intros; simpl; f_equal; lia).
  destruct (decide (k + 0 = idx)%nat) as [E | N].
  - rewrite filter_cons_False by (simpl; lia). rewrite (IH (S k)).
    destruct (decide (S k <= idx)%nat); [lia|]. destruct (decide (k <= idx)%nat); [|lia].
    by replace (idx - k)%nat with 0%nat by lia.
  - rewrite filter_cons_True by (simpl; lia). rewrite fmap_cons, (IH (S k)). simpl.
    destruct (decide (S k <= idx)%nat), (decide (k <= idx)%nat); try lia; [|done].
    by replace (idx - k)%nat with (S (idx - S k)) by lia.
Qed.

Lemma compile_blank_row :
  compileRow {| row_column := None; row_op := Api.eq; row_value := None |} = None.
Proof. reflexivity. Qed.

(** X5: a row just added has no column and adds no clause: the
    descriptor of the view, and so the key of the query, is the one it
    was before the click on Add row. *)
Theorem addRow_same_descriptor (v : View) :
  length (addRow (filters v)) = S (length (filters v)) /\
  processed (addRow (filters v)) = processed (filters v) /\
  queryBody (withFilters (addRow (filters v)) v) = queryBody v.
Proof.
  assert (processed (addRow (filters v)) = processed (filters v)) as H.
  { unfold addRow, processed. rewrite omap_app. simpl. by rewrite app_nil_r. }
  split; [unfold addRow; rewrite length_app; simpl; lia|]. split; [done|].
  unfold queryBody. simpl. by rewrite H.
Qed.

(** X6: Remove deletes the row at its index and nothing else: the rows
    before it stay where they are, the rows after it move up by one,
    and an index past the end removes nothing. *)
Theorem removeRow_deletes (idx : nat) (arr : list FilterRow) :
  removeRow idx arr = delete idx arr /\
  (forall j, (j < idx)%nat -> removeRow idx arr !! j = arr !! j) /\
  (forall j, (idx <= j)%nat -> removeRow idx arr !! j = arr !! S j) /\
  ((idx < length arr)%nat -> S (length (removeRow idx arr)) = length arr) /\
  ((length arr <= idx)%nat -> removeRow idx arr = arr).
Proof.
  assert (removeRow idx arr = delete idx arr) as ->.
  { unfold removeRow.
    rewrite (imap_ext _ (fun i it => ((0 + i)%nat, it))) by done.
    rewrite (removeRow_from idx arr 0).
    destruct (decide (0 <= idx)%nat); [|lia]. by rewrite Nat.sub_0_r. }
  split; [done|]. split; [|split; [|split]].
  - intros j Hj. by apply list_lookup_delete_lt.
  - intros j Hj. by apply list_lookup_delete_ge.
  - intros H. rewrite length_delete by by apply lookup_lt_is_Some_2. lia.
  - intros H. rewrite delete_take_drop, take_ge, drop_ge by lia. apply app_nil_r.
Qed.

Lemma removeRow_deletes_witness :
  let a := {| row_column := Some "a"; row_op := Api.eq; row_value := Some "1" |} in
  let b := {| row_column := Some "b"; row_op := Api.lt; row_value := Some "2" |} in
  let c := {| row_column := Some "c"; row_op := Api.gt; row_value := Some "3" |} in
  removeRow 1 [a; b; c] = [a; c] /\
  removeRow 1 [a; b; c] !! 0%nat = Some a /\
  removeRow 1 [a; b; c] !! 1%nat = Some c /\
  S (length (removeRow 1 [a; b; c])) = 3%nat /\
  removeRow 3 [a; b; c] = [a; b; c].
Proof.
  intros a b c.
  destruct (removeRow_deletes 1 [a; b; c]) as (H1 & H2 & H3 & H4 & _).
  destruct (removeRow_deletes 3 [a; b; c]) as (_ & _ & _ & _ & H5).
  split; [exact H1|]. split; [apply (H2 0%nat); lia|].
  split; [apply (H3 1%nat); lia|]. split; [apply H4; simpl; lia|].
  apply H5. simpl. lia.
Defined.

(** X7: once the operator of a row has been changed, the row is in the
    query only if the new operator takes no value and the row has a
    column; with any other operator it is dropped until a value is
    typed again. *)
Theorem setRowOp_then_compile (arr : list FilterRow) (idx : nat)
    (newop : Api.FilterOp) (it : FilterRow) :
  arr !! idx = Some it ->
  exists it',
    setRowOp idx newop arr !! idx = Some it' /\
    (has NO_VALUE_OPS newop = false -> compileRow it' = None) /\
    (has NO_VALUE_OPS newop = true ->
     forall col, row_column it = Some col -> col <> EmptyString ->
       compileRow it' = Some (Api.mkClause col newop None)) /\
    (Js.truthy_opt (row_column it) = false -> compileRow it' = None).
Proof.
  intros E. eexists. split.
  { unfold setRowOp. rewrite list_lookup_imap, E. simpl. by rewrite Nat.eqb_refl. }
  split; [|split].
  - intros Hno. unfold compileRow. simpl. destruct (row_column it) as [col|]; [|done].
    destruct (Js.truthy col); [|done]. simpl. rewrite Hno.
    by destruct (bool_decide (newop = Api.between)), (has ARRAY_VALUE_OPS newop).
  - intros Hno col Hc Hne%truthy_true. unfold compileRow. simpl. by rewrite Hc, Hne, Hno.
  - intros Hc. unfold compileRow. simpl. destruct (row_column it) as [col|]; [|done].
    simpl in Hc. by rewrite Hc.
Qed.

Lemma setRowOp_then_compile_witness :
  let arr := [mkRow (Some "age") Api.eq (Some "42")] in
  exists it', setRowOp 0 Api.gt arr !! 0%nat = Some it' /\ compileRow it' = None.
Proof.
  intros arr.
  destruct (setRowOp_then_compile arr 0 Api.gt (mkRow (Some "age") Api.eq (Some "42")) eq_refl)
    as (it' & H1 & H2 & _).
  exists it'. split; [exact H1 | exact (H2 eq_refl)].
Defined.

(** *** The two inputs of a range *)

Lemma sep_free_cons sep c r :
  sep_free sep (String c r) <-> c <> sep /\ sep_free sep r.
Proof.
  unfold sep_free. simpl. rewrite not_elem_of_cons. split; intros [? ?]; split; congruence.
Qed.

Lemma sep_free_empty sep : sep_free sep EmptyString.
Proof. unfold sep_free. simpl. apply not_elem_of_nil. Qed.

Lemma split_app_sep sep x r :
  sep_free sep x -> Js.split sep (x +:+ String sep r) = x :: Js.split sep r.
Proof.
  induction x as [|c x IH]; intros H; simpl; [by rewrite Ascii.eqb_refl|].
  apply sep_free_cons in H as [Hc Hx].
  destruct (Ascii.eqb_spec c sep); [done|]. by rewrite IH.
Qed.

Lemma split_sep_free sep x : sep_free sep x -> Js.split sep x = [x].
Proof.
  induction x as [|c x IH]; intros H; [done|].
  apply sep_free_cons in H as [Hc Hx]. simpl.
  destruct (Ascii.eqb_spec c sep); [done|]. by rewrite IH.
Qed.

Lemma comma_free_cons c r :
  comma_free (String c r) <-> c <> ","%char /\ comma_free r.
Proof. apply sep_free_cons. Qed.

Lemma comma_free_empty : comma_free EmptyString.
Proof. apply sep_free_empty. Qed.

Lemma split_app_comma x r :
  comma_free x -> Js.split "," (x +:+ String "," r) = x :: Js.split "," r.
Proof. apply split_app_sep. Qed.

Lemma split_comma_free x : comma_free x -> Js.split "," x = [x].
Proof. apply split_sep_free. Qed.

Lemma split_pieces_comma_free s : Forall comma_free (Js.split "," s).
Proof.
  induction s as [|c s IH]; simpl.
  - constructor; [apply comma_free_empty | constructor].
  - destruct (Ascii.eqb_spec c ",") as [->|Hc].
    + constructor; [apply comma_free_empty | done].
    + destruct (Js.split "," s) as [|h t].
      * constructor; [|done]. apply comma_free_cons. split; [done | apply comma_free_empty].
      * inversion_clear IH. constructor; [|done]. by apply comma_free_cons.
Qed.

Lemma shown_piece_comma_free f i : comma_free (shown (pieces f !! i)).
Proof.
  destruct (pieces f !! i) as [p|] eqn:E; simpl.
  - eapply Forall_lookup_1; [apply split_pieces_comma_free | exact E].
  - apply comma_free_empty.
Qed.

Lemma split_pair x y :
  comma_free x -> comma_free y -> Js.split "," (x +:+ "," +:+ y) = [x; y].
Proof.
  intros Hx Hy. change ("," +:+ y) with (String "," y).
  by rewrite split_app_comma, split_comma_free.
Qed.

(** X8: typing a bound without a comma into the Low input makes the
    value of the row that bound, a comma and the High bound shown; the
    row then reads back as exactly these two bounds, whatever further
    pieces its value had, and keeps its column and operator. The High
    input does the same on the other side. After both, a [between]
    row with a column and two non-blank bounds compiles to the pair of
    the coerced bounds. *)
Theorem range_inputs (arr : list FilterRow) (idx : nat) (f : FilterRow) (x y : string) :
  arr !! idx = Some f -> comma_free x -> comma_free y ->
  (exists f1,
      setLow f idx x arr !! idx = Some f1 /\
      pieces f1 = [x; shown (high f)] /\
      row_column f1 = row_column f /\ row_op f1 = row_op f /\
      exists f2,
        setHigh f1 idx y (setLow f idx x arr) !! idx = Some f2 /\
        pieces f2 = [x; y] /\
        (forall col,
            row_column f = Some col -> col <> EmptyString -> row_op f = Api.between ->
            Js.trim x <> EmptyString -> Js.trim y <> EmptyString ->
            compileRow f2
            = Some (Api.mkClause col Api.between
                      (Some (Api.Array [coerceType x; coerceType y]))))) /\
  (exists f1,
      setHigh f idx y arr !! idx = Some f1 /\
      pieces f1 = [shown (low f); y] /\
      row_column f1 = row_column f /\ row_op f1 = row_op f).
Proof.
  intros E Hx Hy. split.
  - eexists. split.
    { unfold setLow, setRowValue. rewrite list_lookup_imap, E. simpl.
      by rewrite Nat.eqb_refl. }
    split; [|split; [done|split; [done|]]].
    { unfold pieces. simpl. apply split_pair; [done | apply shown_piece_comma_free]. }
    eexists. split.
    { unfold setHigh, setRowValue at 1. rewrite list_lookup_imap.
      unfold setLow, setRowValue. rewrite list_lookup_imap, E. simpl.
      by rewrite Nat.eqb_refl. }
    assert (shown (low {| row_column := row_column f; row_op := row_op f;
                          row_value := Some (x +:+ "," +:+ shown (high f)) |}) = x) as Hlow.
    { unfold low, pieces. simpl.
      rewrite split_pair; [done | done | apply shown_piece_comma_free]. }
    rewrite Hlow. split.
    { unfold pieces. simpl. by apply split_pair. }
    intros col Hc Hne Hop Htx Hty.
    rewrite (compileRow_selected _ col) by done. cbv zeta. simpl.
    rewrite Hop. simpl. unfold tokens. rewrite split_pair by done. simpl.
    rewrite !filter_cons_True, filter_nil by done. simpl.
    by rewrite !coerceType_trim.
  - eexists. split.
    { unfold setHigh, setRowValue. rewrite list_lookup_imap, E. simpl.
      by rewrite Nat.eqb_refl. }
    split; [|done].
    unfold pieces. simpl. apply split_pair; [apply shown_piece_comma_free | done].
Qed.

Lemma range_inputs_witness :
  let f := mkRow (Some "price") Api.between (Some "1,2,3") in
  exists f1 f2,
    setLow f 0 "10" [f] !! 0%nat = Some f1 /\
    pieces f1 = ["10"; "2"] /\
    setHigh f1 0 " 20" (setLow f 0 "10" [f]) !! 0%nat = Some f2 /\
    compileRow f2
    = Some (Api.mkClause "price" Api.between
              (Some (Api.Array [Api.VNum (Js.of_Z 10); Api.VNum (Js.of_Z 20)]))).
Proof.
  intros f.
  assert (comma_free "10") as H10
    by (intros H; repeat (apply elem_of_cons in H as [H | H]; [discriminate|]);
        by apply elem_of_nil in H).
  assert (comma_free " 20") as H20
    by (intros H; repeat (apply elem_of_cons in H as [H | H]; [discriminate|]);
        by apply elem_of_nil in H).
  destruct (range_inputs [f] 0 f "10" " 20" eq_refl H10 H20)
    as ((f1 & E1 & P1 & _ & _ & f2 & E2 & _ & C2) & _).
  exists f1, f2. split; [exact E1|]. split; [exact P1|]. split; [exact E2|].
  apply (C2 "price"); [reflexivity | discriminate | reflexivity | discriminate | discriminate].
Defined.
End RowFacts.

(** ** Projection, table and paging *)

Section ViewFacts.
Import QueryView Handlers.

Lemma field_NoDup prev o : NoDup prev -> NoDup (field prev o).
Proof.
  intros H. destruct o as [v | f]; simpl.
  - unfold addField. case_bool_decide; [done|].
    apply NoDup_app. split; [done|]. split; [|apply NoDup_singleton].
    intros x Hx ->%list_elem_of_singleton. done.
  - by apply NoDup_filter.
Qed.

(** X9: whatever columns are added and removed, in whatever order, the
    projection never holds a column twice. Adding a column puts it in
    (at the end if it is new, nowhere if it is there); removing it
    takes it out and keeps the others in their order; adding a new
    column and removing it again gives back the projection. *)
Theorem fields_no_duplicates :
  (forall os, NoDup (foldl field [] os)) /\
  (forall v prev, v ∈ addField v prev /\ (v ∈ prev -> addField v prev = prev) /\
                  (v ∉ prev -> addField v prev = prev ++ [v])) /\
  (forall f prev, (f ∉ removeField f prev) /\ sublist (removeField f prev) prev /\
                  (forall x, x <> f -> x ∈ prev -> x ∈ removeField f prev)) /\
  (forall v prev, v ∉ prev -> removeField v (addField v prev) = prev).
Proof.
  split; [|split; [|split]].
  - intros os. assert (forall prev, NoDup prev -> NoDup (foldl field prev os)) as H.
    { induction os as [|o os IH]; intros prev Hp; [done|]. simpl. by apply IH, field_NoDup. }
    apply H, NoDup_nil_2.
  - intros v prev. unfold addField. case_bool_decide; repeat split; try done.
    apply elem_of_app. right. by apply list_elem_of_singleton.
  - intros f prev. unfold removeField. split; [|split].
    + by intros [? _]%list_elem_of_filter.
    + apply sublist_filter.
    + intros x Hx Hin. by apply list_elem_of_filter.
  - intros v prev Hv. unfold addField, removeField. rewrite bool_decide_eq_false_2 by done.
    rewrite filter_app, filter_cons_False, filter_nil, app_nil_r by (intros N; by apply N).
    apply filter_all. apply Forall_forall. by intros x Hx ->.
Qed.

Lemma fields_no_duplicates_witness :
  removeField "b" (addField "b" ["a"; "c"]) = ["a"; "c"] /\
  addField "a" ["a"; "c"] = ["a"; "c"].
Proof.
  destruct fields_no_duplicates as (_ & Hadd & _ & Hround). split.
  - apply Hround. intros H. repeat (apply elem_of_cons in H as [H | H]; [discriminate|]).
    by apply elem_of_nil in H.
  - apply Hadd. by left.
Defined.

(** X10: when another table is selected, the render that follows,
    before the effect has run, still has the old state: its
    descriptor is the one the view had for the table before, filters,
    projection and offset included. Once the effect has run, the
    projection and the filter rows are empty and the offset is 0,
    while the limit, the logical operator and the sort, column
    included, are the ones of the table before: the descriptor then
    has no filter, no [fields] and offset 0, and carries the old
    limit and the old [order_by]. *)
Theorem selectTable_resets (t : string) (v : View) :
  Some t <> selectedTable v -> t <> EmptyString ->
  let r := rendered (Some t) v in
  let v' := selectTable (Some t) v in
  (exists q0, queryBody r = Some q0 /\
     Api.filters q0 = processed (filters v) /\
     Api.offset q0 = offset v /\ Api.limit q0 = limit v /\
     forall q, queryBody v = Some q -> q0 = q) /\
  fields v' = [] /\ filters v' = [] /\ offset v' = Binary64.of_Z 0 /\
  limit v' = limit v /\ logical v' = logical v /\ orderBy v' = orderBy v /\
  (exists q', queryBody v' = Some q' /\
     Api.filters q' = [] /\ Api.fields q' = None /\
     Api.offset q' = Binary64.of_Z 0 /\ Api.limit q' = limit v /\
     forall q, queryBody v = Some q -> Api.order_by q' = Api.order_by q).
Proof.
  intros Hne Ht r v'. unfold r, v', rendered, selectTable.
  rewrite bool_decide_eq_false_2 by done.
  apply truthy_true in Ht. unfold queryBody. simpl. rewrite Ht. simpl.
  split; [|repeat split; try done].
  - eexists. split; [done|]. simpl. repeat split; try done.
    intros q. destruct (Js.truthy_opt (selectedTable v)); [|done]. by intros [= <-].
  - eexists. split; [done|]. simpl. repeat split; try done.
    intros q. destruct (Js.truthy_opt (selectedTable v)); [|done]. by intros [= <-].
Qed.

Lemma selectTable_resets_witness :
  let v := pages (Handlers.withFilters [mkRow (Some "a") Api.eq (Some "1")]
                    (initial (Some "orders"))) [Next] in
  queryBody (rendered (Some "users") v) = queryBody v /\
  queryBody (selectTable (Some "users") v)
  = Some {| Api.filters := []; Api.logical_operator := Api.AND; Api.order_by := None;
            Api.limit := Binary64.of_Z 100; Api.offset := Binary64.of_Z 0;
            Api.fields := None |} /\
  filters (selectTable (Some "users") v) = [].
Proof.
  intros v. split; [vm_compute; reflexivity|]. split; [vm_compute; reflexivity|].
  assert (Some "users" <> selectedTable v) as H1 by discriminate.
  assert ("users" <> EmptyString) as H2 by discriminate.
  destruct (selectTable_resets "users" v H1 H2) as (_ & _ & H & _).
  exact H.
Defined.

(** X12: the sort is in the descriptor exactly while a column is
    chosen: choosing a column puts [order_by] in with the direction
    that was set, choosing None takes it out, and choosing a direction
    changes the direction alone; the direction chosen while there is
    no column comes back with the next column. *)
Theorem sort_selectors (v : View) (q : Api.QueryBody) :
  queryBody v = Some q ->
  let sorted p := queryBody {| selectedTable := selectedTable v; fields := fields v;
                               filters := filters v; logical := logical v; orderBy := p;
                               limit := limit v; offset := offset v |} in
  (forall c, c <> EmptyString ->
     exists q', sorted (setSortColumn c (orderBy v)) = Some q' /\
       Api.order_by q' = Some (Api.mkOrderBy c (sort_direction (orderBy v)))) /\
  (exists q', sorted (setSortColumn EmptyString (orderBy v)) = Some q' /\
     Api.order_by q' = None) /\
  (forall d, exists q', sorted (setSortDirection d (orderBy v)) = Some q' /\
     (is_Some (Api.order_by q') <-> is_Some (Api.order_by q)) /\
     Api.filters q' = Api.filters q) /\
  (forall c d, c <> EmptyString ->
     exists q',
       sorted (setSortColumn c (setSortDirection d (setSortColumn EmptyString (orderBy v))))
       = Some q' /\
       Api.order_by q' = Some (Api.mkOrderBy c d)).
Proof.
  unfold queryBody. destruct (Js.truthy_opt (selectedTable v)) eqn:Ht; [|done].
  simpl. intros [= <-]. rewrite Ht. simpl. repeat split.
  - intros c Hc%truthy_true. eexists. split; [done|]. simpl. by rewrite Hc.
  - eexists. split; [done|]. done.
  - intros d. eexists. split; [done|]. simpl. split; [|done].
    destruct (sort_column (orderBy v)) as [c|]; [|done]. by destruct (Js.truthy c).
  - intros c d Hc%truthy_true. eexists. split; [done|]. simpl. by rewrite Hc.
Qed.

Lemma sort_selectors_witness :
  let v := initial (Some "orders") in
  exists q', queryBody {| selectedTable := selectedTable v; fields := fields v;
                          filters := filters v; logical := logical v;
                          orderBy := setSortColumn "id" (orderBy v);
                          limit := limit v; offset := offset v |} = Some q' /\
             Api.order_by q' = Some (Api.mkOrderBy "id" Api.desc).
Proof.
  intros v.
  destruct (sort_selectors v _ eq_refl) as (H & _).
  apply (H "id"). discriminate.
Defined.
End ViewFacts.

(** ** The count and the failures of an export *)

Section ExportMore.
Import Byte.
Import QueryView ExportPipeline ExportCounts Backend.

Lemma split_bytes_app (a b : bytes) :
  exists ia la hb tb,
    split_bytes nl a = ia ++ [la] /\ split_bytes nl b = hb :: tb /\
    split_bytes nl (a ++ b) = ia ++ (la ++ hb) :: tb.
Proof.
  induction a as [|x a IH]; simpl.
  - destruct (split_bytes nl b) as [|hb tb] eqn:E.
    + by destruct b as [|y b]; simpl in E;
        [|destruct (Byte.eqb y nl); [|destruct (split_bytes nl b)]].
    + by exists [], [], hb, tb.
  - destruct IH as (ia & la & hb & tb & Ea & Eb & Eab). rewrite Ea, Eab.
    destruct (Byte.eqb x nl).
    + by exists ([] :: ia), la, hb, tb.
    + destruct ia as [|i ia]; simpl.
      * by exists [], (x :: la), hb, tb.
      * by exists ((x :: i) :: ia), la, hb, tb.
Qed.

Lemma lines_of_app (a b : bytes) :
  (lines_of (a ++ b) <= lines_of a + lines_of b <= lines_of (a ++ b) + 1)%nat.
Proof.
  unfold lines_of. destruct (split_bytes_app a b) as (ia & la & hb & tb & -> & -> & ->).
  rewrite !filter_app, !length_app.
  destruct la, hb;
    rewrite ?filter_cons_True, ?filter_cons_False, ?filter_nil by (simpl; congruence);
    simpl; rewrite ?filter_cons_True, ?filter_cons_False by (simpl; congruence);
    simpl; lia.
Qed.

Lemma lines_of_concat (chunks : list bytes) :
  (lines_of (concat chunks) <= sum_list (map lines_of chunks)
   <= lines_of (concat chunks) + pred (length chunks))%nat.
Proof.
  induction chunks as [|c cs IH]; [compute; lia|].
  simpl. pose proof (lines_of_app c (concat cs)) as H.
  destruct cs as [|c' cs]; [simpl in *; rewrite app_nil_r in *; lia|].
  simpl in *. lia.
Qed.

Lemma last_after_two {A} (a : A) (l : list A) (x y : A) :
  last (a :: l ++ [x; y]) = Some y.
Proof.
  replace (a :: l ++ [x; y]) with ((a :: l ++ [x]) ++ [y])
    by (simpl; by rewrite <- app_assoc).
  apply last_snoc.
Qed.

Lemma onExport_done (s : Screen) (now : Z) (table : string) (reads : list (option bytes)) :
  selectedTable (view s) = Some table -> table <> EmptyString ->
  (onExport s now (Stream reads Done)).2
  = Toast "Export started" (Some ("Streaming NDJSON" +:+ ellipsis)) false
      :: updates 0 (received reads)
      ++ [Download (table +:+ "-" +:+ show_Z now +:+ ".ndjson")
                   "application/x-ndjson" (concat (received reads));
          Toast "Export complete"
                (Some (show_nat (sum_list (map count_lines (received reads)))
                       +:+ " lines saved")) false].
Proof.
  intros Ht Hne. unfold onExport. destruct (queryBody_selected _ _ Ht Hne) as [q ->].
  rewrite Ht. apply truthy_true in Hne. rewrite Hne. simpl.
  by rewrite read_loop_spec.
Qed.

(** X13: the count an export reports is never below the number of
    non-empty lines of the file it saves, and exceeds it by at most
    one for each boundary between two chunks (a line cut by a boundary
    counts on both sides), provided no chunk starts with a byte-order
    mark. A stream that arrives in one chunk is counted exactly. *)
Theorem export_count_bounds (s : Screen) (now : Z) (table : string)
    (reads : list (option bytes)) :
  selectedTable (view s) = Some table -> table <> EmptyString ->
  Forall (fun c => strip_bom c = c) (received reads) ->
  exists name content lines,
    last (onExport s now (Stream reads Done)).2
    = Some (Toast "Export complete" (Some (show_nat lines +:+ " lines saved")) false) /\
    Download name "application/x-ndjson" content ∈ (onExport s now (Stream reads Done)).2 /\
    (lines_of content <= lines <= lines_of content + pred (length (received reads)))%nat.
Proof.
  intros Ht Hne Hbom. do 3 eexists. rewrite (onExport_done s now table reads Ht Hne).
  split; [|split].
  - apply last_after_two.
  - right. apply elem_of_app. right. left.
  - assert (map count_lines (received reads) = map lines_of (received reads)) as ->.
    { induction Hbom as [|c l Hc _ IH]; [done|]. simpl. rewrite IH. f_equal.
      unfold count_lines, lines_of. by rewrite Hc. }
    apply lines_of_concat.
Qed.

Lemma export_count_bounds_witness :
  let s := mkScreen (initial (Some "orders")) None in
  let reads := [Some [x61; x0a; x62]; Some [x63; x0a]] in
  exists name content lines,
    last (onExport s 5 (Stream reads Done)).2
    = Some (Toast "Export complete" (Some (show_nat lines +:+ " lines saved")) false) /\
    Download name "application/x-ndjson" content ∈ (onExport s 5 (Stream reads Done)).2 /\
    (lines_of content <= lines <= lines_of content + 1)%nat.
Proof.
  intros s reads.
  assert ("orders" <> EmptyString) as Hne by discriminate.
  apply (export_count_bounds s 5 "orders" reads eq_refl Hne).
  repeat constructor.
Defined.

Lemma updates_running lines values :
  updates lines values
  = map (fun n => ToastUpdate ("Exporting" +:+ ellipsis) (show_nat n +:+ " lines"))
        (running lines values).
Proof.
  revert lines. induction values as [|v r IH]; intros lines; simpl; [done|]. by rewrite IH.
Qed.

Lemma running_spec values : forall lines,
  length (running lines values) = length values /\
  ascending (lines :: running lines values) /\
  last (lines :: running lines values)
  = Some (lines + sum_list (map count_lines values))%nat.
Proof.
  induction values as [|v r IH]; intros lines; simpl.
  - split; [done|]. split; [done|]. f_equal. lia.
  - destruct (IH (lines + count_lines v)%nat) as (H1 & H2 & H3).
    split; [by rewrite H1|]. split; [split; [lia | done]|].
    destruct (running (lines + count_lines v) r) eqn:E; simpl in *.
    + injection H3 as H3. f_equal. lia.
    + rewrite H3. f_equal. lia.
Qed.

(** X14: while an export runs the toast is updated once for each chunk
    received, with a count that never goes down, and the count of the
    last update is the one the completion toast reports. *)
Theorem export_progress (s : Screen) (now : Z) (table : string)
    (reads : list (option bytes)) :
  selectedTable (view s) = Some table -> table <> EmptyString ->
  exists counts file done,
    (onExport s now (Stream reads Done)).2
    = Toast "Export started" (Some ("Streaming NDJSON" +:+ ellipsis)) false
        :: map (fun n => ToastUpdate ("Exporting" +:+ ellipsis) (show_nat n +:+ " lines")) counts
        ++ [file; Toast "Export complete" (Some (show_nat done +:+ " lines saved")) false] /\
    length counts = length (received reads) /\
    ascending counts /\
    last (0%nat :: counts) = Some done.
Proof.
  intros Ht Hne. exists (running 0 (received reads)). do 2 eexists.
  rewrite (onExport_done s now table reads Ht Hne), updates_running.
  split; [done|].
  destruct (running_spec (received reads) 0) as (H1 & H2 & H3).
  split; [done|]. split; [|exact H3].
  simpl in H2. destruct (running 0 (received reads)); [done | by destruct H2].
Qed.

Lemma export_progress_witness :
  let s := mkScreen (initial (Some "orders")) None in
  exists counts file done,
    (onExport s 5 (Stream [Some [x61; x0a]; None; Some [x62; x0a; x63; x0a]] Done)).2
    = Toast "Export started" (Some ("Streaming NDJSON" +:+ ellipsis)) false
        :: map (fun n => ToastUpdate ("Exporting" +:+ ellipsis) (show_nat n +:+ " lines")) counts
        ++ [file; Toast "Export complete" (Some (show_nat done +:+ " lines saved")) false] /\
    length counts = 2%nat /\ ascending counts /\ last (0%nat :: counts) = Some done.
Proof.
  intros s. assert ("orders" <> EmptyString) as Hne by discriminate.
  exact (export_progress s 5 "orders" _ eq_refl Hne).
Defined.

(** X15: when the backend answers the stream request with a status
    outside 200..299, or with no body, the export shows one toast,
    Export failed with the text Stream failed and the status, and
    nothing else: no start toast, no download. When the request itself
    is rejected the toast carries the message of the rejection. *)
Theorem export_backend_failure (s : Screen) (now : Z) (table : string) :
  selectedTable (view s) = Some table -> table <> EmptyString ->
  (forall status body,
      ok status = false \/ body = None ->
      (onExport s now (streamData (Responded status body))).2
      = [Toast "Export failed" (Some ("Stream failed (" +:+ show_Z status +:+ ")")) true]) /\
  (forall message,
      (onExport s now (streamData (Rejected message))).2
      = [Toast "Export failed" message true]) /\
  (forall status reads last,
      ok status = true ->
      streamData (Responded status (Some (reads, last))) = Stream reads last).
Proof.
  intros Ht Hne.
  assert (forall m, (onExport s now (StreamFailed m)).2 = [Toast "Export failed" m true]) as H.
  { intros m. unfold onExport. destruct (queryBody_selected _ _ Ht Hne) as [q ->].
    rewrite Ht. apply truthy_true in Hne. by rewrite Hne. }
  split; [|split].
  - intros status body Hbad. unfold streamData.
    destruct body as [[reads last]|]; [|apply H].
    destruct Hbad as [-> | ?]; [apply H | done].
  - intros message. apply H.
  - intros status reads last Hok. unfold streamData. by rewrite Hok.
Qed.

Lemma export_backend_failure_witness :
  let s := mkScreen (initial (Some "orders")) None in
  (onExport s 5 (streamData (Responded 503 (Some ([Some [x61]], Done))))).2
  = [Toast "Export failed" (Some "Stream failed (503)") true] /\
  (onExport s 5 (streamData (Responded 200 None))).2
  = [Toast "Export failed" (Some "Stream failed (200)") true].
Proof.
  intros s. assert ("orders" <> EmptyString) as Hne by discriminate.
  destruct (export_backend_failure s 5 "orders" eq_refl Hne) as (H & _).
  split; [apply (H 503); by left | apply (H 200); by right].
Defined.
End ExportMore.

(** ** The debounced callback in general *)

Section DebounceMore.
Import Timers Controller Schedule.

Context {D : Type} `{EqDecision D}.
Variable enabled : D -> bool.

Lemma refetch_times_app (l1 l2 : list (request (D := D))) :
  refetch_times (l1 ++ l2) = refetch_times l1 ++ refetch_times l2.
Proof. unfold refetch_times. by rewrite filter_app, map_app. Qed.

Lemma spaced_snoc gap R y :
  spaced gap R -> (forall x, last R = Some x -> x + gap <= y) -> spaced gap (R ++ [y]).
Proof.
  induction R as [|a R IH]; intros Hs Hl; [done|].
  destruct R as [|b R]; simpl in *.
  - split; [|done]. by apply Hl.
  - destruct Hs as [Hab Hs]. split; [done|]. apply IH; [done|]. intros x Hx. by apply Hl.
Qed.

Lemma Forall_last_le (R : list Z) (bound x : Z) :
  Forall (fun t => t <= bound) R -> last R = Some x -> x <= bound.
Proof.
  intros HF Hl. apply last_Some in Hl as [l' ->].
  apply Forall_app in HF as [_ HF]. by inversion_clear HF.
Qed.

Lemma from_click_more (cs cs' R : list Z) :
  Forall (fun t => exists tc, tc ∈ cs /\ t = tc + delay) R ->
  Forall (fun t => exists tc, tc ∈ cs ++ cs' /\ t = tc + delay) R.
Proof.
  intros HF. eapply Forall_impl; [exact HF|].
  intros t (tc & Hin & ->). exists tc. split; [|done].
  apply elem_of_app. by left.
Qed.

Lemma call_times_advance (s : state (D := D)) (t : Z) :
  call_times (advance t s) = call_times s ++ map fst (fire t (window s)).1.
Proof.
  destruct (advance_frame t s) as (_ & _ & _ & Hcall & _).
  unfold call_times. rewrite Hcall, map_app, map_map. done.
Qed.

Lemma advance_settled (s : state (D := D)) (now t : Z) (cs : list Z) :
  settled s now cs -> now <= t -> settled (advance t s) t cs.
Proof.
  intros (Hn & Hs & Hf & Hcase) Hle.
  destruct (advance_frame t s) as (_ & Hr & Hw & _).
  unfold settled. rewrite call_times_advance, Hw, Hr. unfold fire. simpl.
  destruct Hcase as [(Hp & Hnow & Hlast & Hlen) | (id & tc & Hp & Href & Hid & Hlc & Htc & Hold & Hlen)].
  - rewrite Hp. simpl. rewrite app_nil_r.
    split; [done|]. split; [done|]. split; [done|]. left.
    split; [done|]. split; [|by split].
    eapply Forall_impl; [exact Hnow|]. intros x Hx. simpl in *. lia.
  - rewrite Hp. destruct (decide (tc + delay <= t)) as [Hdue | Hnot].
    + rewrite (filter_cons_True (fun x : nat * Z * unit => x.1.2 <= t)) by (simpl; lia).
      rewrite (filter_cons_False (fun x : nat * Z * unit => ~ x.1.2 <= t)) by (simpl; lia).
      rewrite !filter_nil. simpl.
      assert (tc ∈ cs) as Hin.
      { apply last_Some in Hlc as [l' ->]. apply elem_of_app. right. by left. }
      split; [done|]. split.
      { apply spaced_snoc; [done|]. intros x Hx.
        pose proof (Forall_last_le _ _ _ Hold Hx). lia. }
      split.
      { apply Forall_app. split; [done|]. constructor; [|done]. by exists tc. }
      left. split; [done|]. split; [|split].
      * apply Forall_app. split; [|by constructor].
        eapply Forall_impl; [exact Hold|]. intros x Hx. simpl in *. unfold delay in *. lia.
      * rewrite last_snoc, Hlc. done.
      * rewrite length_app. simpl. lia.
    + rewrite (filter_cons_False (fun x : nat * Z * unit => x.1.2 <= t)) by (simpl; lia).
      rewrite (filter_cons_True (fun x : nat * Z * unit => ~ x.1.2 <= t)) by (simpl; lia).
      rewrite !filter_nil. simpl. rewrite app_nil_r.
      split; [done|]. split; [done|]. split; [done|]. right.
      exists id, tc. repeat split; try done. lia.
Qed.

Lemma handle_settled (s : state (D := D)) (t : Z) (e : event) (cs : list Z) :
  settled s t cs ->
  settled (handle enabled t e s) t
          (cs ++ match e with RunQuery => [t] | _ => [] end).
Proof.
  intros (Hn & Hs & Hf & Hcase).
  destruct (handle_frame enabled t e s) as (Hc & _ & _ & _ & Hw).
  assert (call_times (handle enabled t e s) = call_times s) as Hct
    by (unfold call_times; by rewrite Hc).
  destruct e as [d| |d|d];
    [destruct Hw as [Hr Hw]; rewrite app_nil_r; unfold settled; by rewrite Hct, Hr, Hw
    | clear Hw
    | destruct Hw as [Hr Hw]; rewrite app_nil_r; unfold settled; by rewrite Hct, Hr, Hw ..].
  unfold settled. rewrite Hct. clear Hc Hct.
  unfold handle, useDebouncedCallback.
  set (w1 := match ref s with
             | Some id => if (id =? 0)%nat then window s else clearTimeout id (window s)
             | None => window s
             end).
  assert (pending w1 = [] /\ next_id w1 = next_id (window s) /\
          Forall (fun x => x <= t) (call_times s) /\
          (length (call_times s) <= length cs)%nat) as (Hp1 & Hn1 & Hold & Hlen).
  { destruct Hcase as [(Hp & Hnow & _ & Hlen)
                      | (id & tc & Hp & Hr & Hid & _ & Htc & Hold & Hlen)].
    - split; [|split; [|done]].
      + unfold w1. destruct (ref s) as [id|]; [destruct (id =? 0)%nat|];
          simpl; by rewrite ?Hp.
      + unfold w1. by destruct (ref s) as [id|]; [destruct (id =? 0)%nat|].
    - unfold w1. rewrite Hr. destruct (Nat.eqb_spec id 0); [done|]. simpl. rewrite Hp.
      rewrite filter_cons_False by (simpl; intros N; by apply N).
      split; [done|]. split; [done|]. split; [|lia].
      eapply Forall_impl; [exact Hold|]. intros x Hx. simpl in *. lia. }
  simpl. rewrite Hp1, Hn1. simpl.
  split; [lia|]. split; [done|]. split; [by apply from_click_more|]. right.
  exists (next_id (window s)), t. repeat split; try done; try lia.
  + by rewrite last_snoc.
  + rewrite length_app. simpl. lia.
Qed.

Lemma steps_settled (evs : list (Z * event)) : forall (s : state (D := D)) now cs,
  settled s now cs -> in_order now (map fst evs) ->
  exists now', settled (foldl (step enabled) s evs) now' (cs ++ clicks evs).
Proof.
  induction evs as [|[t e] evs IH]; intros s now cs Hs Ho; simpl.
  - exists now. by rewrite app_nil_r.
  - destruct Ho as [Hle Ho].
    pose proof (handle_settled _ t e cs (advance_settled s now t cs Hs Hle)) as Hs'.
    destruct (IH _ t _ Hs' Ho) as [now' Hfin]. exists now'.
    unfold clicks in *. simpl. unfold step at 2. simpl.
    destruct e as [d| |d|d]; simpl in *;
      by rewrite ?app_nil_r, <- ?app_assoc in Hfin.
Qed.

(** The requests that [refetch()] sends are sent at the times of its
    calls, at most one for each call. *)
Lemma refetches_sent (due : list (Z * unit)) : forall s : state (D := D),
  refetch_times (issued s) `sublist_of` call_times s ->
  refetch_times (issued (foldl refetch s due))
    `sublist_of` call_times (foldl refetch s due).
Proof.
  induction due as [|t due IH]; intros s Hs; [done|]. simpl. apply IH.
  destruct (refetch_frame s t) as (_ & _ & _ & Hc & Hi).
  unfold call_times. rewrite Hc, Hi, refetch_times_app, map_app.
  apply sublist_app; [done|]. destruct (joins _); [apply sublist_nil_l | done].
Qed.

Lemma step_sent (s : state (D := D)) (te : Z * event) :
  refetch_times (issued s) `sublist_of` call_times s ->
  refetch_times (issued (step enabled s te)) `sublist_of` call_times (step enabled s te).
Proof.
  intros Hs. unfold step.
  assert (refetch_times (issued (advance te.1 s)) `sublist_of` call_times (advance te.1 s))
    as Ha.
  { unfold advance. destruct (fire te.1 (window s)) as [due w]. by apply refetches_sent. }
  destruct (handle_frame enabled te.1 te.2 (advance te.1 s)) as (Hc & _ & Hf & _).
  unfold call_times, refetch_times in *. by rewrite Hc, Hf.
Qed.

Lemma run_sent (evs : list (Z * event)) : forall s : state (D := D),
  refetch_times (issued s) `sublist_of` call_times s ->
  refetch_times (issued (run enabled s evs)) `sublist_of` call_times (run enabled s evs).
Proof.
  unfold run. induction evs as [|te evs IH]; intros s Hs; simpl.
  - unfold finish. by apply refetches_sent.
  - by apply IH, step_sent.
Qed.

(** X16: in any run whose events come in the order of their times, the
    calls of [refetch()] that the Run Query button causes lie at least
    300 ms apart, each is made exactly 300 ms after a click, there are
    no more of them than clicks, and when there was a click the last
    call is the one 300 ms after the last click. The requests these
    calls send are sent at the times of calls, at most one for each
    call. *)
Theorem refetches_spaced (c0 : D -> entry) (d0 : D) (t0 : Z) (evs : list (Z * event)) :
  in_order t0 (map fst evs) ->
  let r := run enabled (start c0 d0) evs in
  let R := call_times r in
  spaced delay R /\
  Forall (fun t => exists tc, tc ∈ clicks evs /\ t = tc + delay) R /\
  (length R <= length (clicks evs))%nat /\
  last R = (fun tc => tc + delay) <$> last (clicks evs) /\
  refetch_times (issued r) `sublist_of` R.
Proof.
  intros Ho r R.
  assert (settled (start c0 d0) t0 []) as Hs0.
  { unfold settled. simpl. split; [lia|]. split; [done|]. split; [done|]. left.
    by repeat split. }
  destruct (steps_settled evs _ _ _ Hs0 Ho) as (now' & Hn & Hs & Hf & Hcase).
  simpl in Hf, Hcase.
  assert (R = call_times (foldl (step enabled) (start c0 d0) evs)
              ++ map fst (drain (window (foldl (step enabled) (start c0 d0) evs)))) as HR.
  { unfold R, r, run, finish, call_times.
    match goal with |- context [foldl refetch ?st ?due] =>
      destruct (refetches_frame due st) as (_ & _ & _ & -> & _)
    end.
    simpl. by rewrite map_app, map_map. }
  split; [|split; [|split; [|split]]]; [..| by apply run_sent]; rewrite HR; unfold drain;
    destruct Hcase as [(Hp & _ & Hlast & Hlen)
                      | (id & tc & Hp & _ & _ & Hlc & _ & Hold & Hlen)];
    rewrite Hp; simpl; rewrite ?app_nil_r; try done.
  - apply spaced_snoc; [done|]. intros x Hx.
    pose proof (Forall_last_le _ _ _ Hold Hx). lia.
  - apply Forall_app. split; [done|]. constructor; [|done]. exists tc. split; [|done].
    apply last_Some in Hlc as [l' ->]. apply elem_of_app. right. by left.
  - rewrite length_app. simpl. lia.
  - by rewrite last_snoc, Hlc.
Qed.
End DebounceMore.

Lemma refetches_spaced_witness :
  let c0 := Controller.store 0%nat (Controller.mkEntry true false)
              (fun _ : nat => Controller.mkEntry false false) in
  let evs := [(0, Controller.RunQuery); (100, Controller.RunQuery);
              (450, Controller.Change 7%nat); (460, Controller.RunQuery)] in
  Schedule.call_times (Controller.run (fun _ => true) (Controller.start c0 0%nat) evs)
  = [400; 760] /\
  Schedule.refetch_times
    (Controller.issued (Controller.run (fun _ => true) (Controller.start c0 0%nat) evs))
  = [400] /\
  Schedule.spaced Controller.delay
    (Schedule.call_times (Controller.run (fun _ => true) (Controller.start c0 0%nat) evs)).
Proof.
  intros c0 evs. split; [reflexivity|]. split; [reflexivity|].
  assert (Schedule.in_order 0 (map fst evs)) as Ho by (simpl; lia).
  exact (proj1 (refetches_spaced (fun _ => true) c0 0%nat 0 evs Ho)).
Defined.

Section DebouncedCalls.
Import Timers.
Context {A : Type}.

Lemma debounced_one_pending (delay : Z) (calls : list (Z * A)) :
  forall (st : option nat * timers A),
    (1 <= next_id st.2)%nat ->
    (pending st.2 = [] \/
     exists id due args, pending st.2 = [(id, due, args)] /\ st.1 = Some id /\ id <> 0%nat) ->
    forall t args, last calls = Some (t, args) ->
    exists id,
      foldl (fun st c => useDebouncedCallback delay c.1 c.2 st) st calls
      = (Some id, {| next_id := S id; pending := [(id, t + delay, args)] |}).
Proof.
  induction calls as [|[t1 a1] calls IH]; intros [r w] Hn Hp t args Hl; [done|].
  simpl in Hn, Hp.
  assert (useDebouncedCallback delay t1 a1 (r, w)
          = (Some (next_id w), {| next_id := S (next_id w);
                                  pending := [(next_id w, t1 + delay, a1)] |})) as Hcall.
  { unfold useDebouncedCallback, setTimeout.
    destruct Hp as [Hp | (id & due & args' & Hp & -> & Hid)].
    - destruct r as [id|]; [destruct (id =? 0)%nat|]; simpl; by rewrite Hp.
    - destruct (Nat.eqb_spec id 0); [done|]. simpl. rewrite Hp.
      by rewrite filter_cons_False by (simpl; intros N; by apply N). }
  cbn [foldl fst snd]. rewrite Hcall. destruct calls as [|c calls].
  - simpl in Hl. injection Hl as <- <-. by eexists.
  - apply IH; [simpl; lia | | exact Hl].
    right. exists (next_id w), (t1 + delay), a1. simpl. repeat split. lia.
Qed.

(** X17: however often the debounced function is called before its
    timer fires, one timer is pending afterwards: that of the last
    call, due [delay] after it and carrying its arguments; the timers
    of the earlier calls are cancelled. *)
Theorem debounced_last_call (delay : Z) (calls : list (Z * A)) (t : Z) (args : A) :
  last calls = Some (t, args) ->
  exists id,
    foldl (fun st c => useDebouncedCallback delay c.1 c.2 st) (None, no_timers) calls
    = (Some id, {| next_id := S id; pending := [(id, t + delay, args)] |}) /\
    drain {| next_id := S id; pending := [(id, t + delay, args)] |} = [(t + delay, args)].
Proof.
  intros Hl.
  destruct (debounced_one_pending delay calls (None, no_timers)) with (t := t) (args := args)
    as [id Hid]; [simpl; lia | by left | done |].
  exists id. by split.
Qed.
End DebouncedCalls.

Lemma debounced_last_call_witness :
  exists id,
    foldl (fun st c => Timers.useDebouncedCallback 300 c.1 c.2 st) (None, Timers.no_timers)
          [(0, "a"); (10, "ab"); (250, "abc")]
    = (Some id, {| Timers.next_id := S id; Timers.pending := [(id, 550, "abc")] |}).
Proof.
  destruct (debounced_last_call 300 [(0, "a"); (10, "ab"); (250, "abc")] 250 "abc" eq_refl)
    as (id & H & _).
  by exists id.
Defined.

(** ** The layout of the grid *)

Section GridFacts.
Import DataGrid GridLayout.

Lemma foldl_add_from (l : list Z) : forall acc, foldl Z.add acc l = acc + foldl Z.add 0 l.
Proof.
  induction l as [|x l IH]; intros acc; simpl; [lia|].
  rewrite (IH (acc + x)), (IH (0 + x)). lia.
Qed.

Lemma width_of_len_mono (n m : nat) :
  (n <= m)%nat -> width_of_len n <= width_of_len m.
Proof.
  intros H. rewrite !width_of_len_exact.
  assert ((56 * Z.of_nat n + 5) / 10 <= (56 * Z.of_nat m + 5) / 10)
    by (apply Z.div_le_mono; lia).
  lia.
Qed.

Lemma max_list_with_prefix {A} (f : A -> nat) (l more : list A) :
  (max_list_with f l <= max_list_with f (l ++ more))%nat.
Proof. induction l as [|x l IH]; simpl; lia. Qed.

Lemma maxLen_more c rows more : (maxLen c rows <= maxLen c (rows ++ more))%nat.
Proof.
  rewrite !maxLen_sample.
  destruct (Nat.le_ge_cases 100 (length rows)).
  - by rewrite take_app_le.
  - rewrite take_app_ge by done. rewrite (take_ge rows) by done.
    pose proof (max_list_with_prefix (fun row => String.length (row_text row c)) rows
                  (take (100 - length rows) more)).
    lia.
Qed.

(** X18: the grid has one width for each column, each between 140 and
    420, so the table is between 140 and 420 pixels wide for each
    column it has, whatever the rows hold. *)
Theorem totalWidth_bounds (columns : list string) (rows : list (option Api.Row)) :
  length (useColumnWidths columns rows) = length columns /\
  140 * Z.of_nat (length columns) <= totalWidth (useColumnWidths columns rows)
  <= 420 * Z.of_nat (length columns).
Proof.
  unfold useColumnWidths, totalWidth. split; [apply length_map|].
  induction columns as [|c columns IH]; simpl; [lia|].
  rewrite foldl_add_from. pose proof (width_of_len_bounds (maxLen c rows)). lia.
Qed.

(** X19: a column never gets narrower when the page gets more rows,
    and is never narrower than its header alone asks for: the widths
    for a page are at most the widths for the page with rows added at
    its end, and at least the widths for no rows at all. *)
Theorem widths_grow (columns : list string) (rows more : list (option Api.Row)) :
  Forall2 Z.le (useColumnWidths columns []) (useColumnWidths columns rows) /\
  Forall2 Z.le (useColumnWidths columns rows) (useColumnWidths columns (rows ++ more)) /\
  forall n m, (n <= m)%nat -> width_of_len n <= width_of_len m.
Proof.
  split; [|split; [|apply width_of_len_mono]].
  - unfold useColumnWidths. induction columns as [|c columns IH]; simpl; constructor; [|done].
    apply width_of_len_mono, (maxLen_more c [] rows).
  - unfold useColumnWidths. induction columns as [|c columns IH]; simpl; constructor; [|done].
    apply width_of_len_mono, maxLen_more.
Qed.

(** X20: on a page of at most 100 rows the widths do not depend on the
    order of the rows. *)
Theorem widths_any_order (columns : list string) (rows rows' : list (option Api.Row)) :
  rows ≡ₚ rows' -> (length rows <= 100)%nat ->
  useColumnWidths columns rows = useColumnWidths columns rows'.
Proof.
  intros Hp Hl. unfold useColumnWidths. apply map_ext. intros c.
  rewrite !maxLen_sample.
  rewrite (take_ge rows) by done.
  rewrite (take_ge rows') by (by rewrite <- Hp).
  by rewrite Hp.
Qed.

Lemma widths_any_order_witness :
  let r1 : option Api.Row := Some (<["id" := "1"]> ∅) in
  let r2 : option Api.Row := Some (<["id" := "a-very-long-identifier-of-some-length"]> ∅) in
  useColumnWidths ["id"] [r1; r2; None] = useColumnWidths ["id"] [None; r2; r1].
Proof.
  intros r1 r2. apply widths_any_order; [|simpl; lia].
  etrans; [apply Permutation_swap|].
  etrans; [apply perm_skip, Permutation_swap|].
  apply Permutation_swap.
Defined.
End GridFacts.

Lemma widths_grow_witness :
  DataGrid.width_of_len 30 <= DataGrid.width_of_len 60 /\
  Forall2 Z.le (DataGrid.useColumnWidths ["id"; "name"] [])
               (DataGrid.useColumnWidths ["id"; "name"] [None]).
Proof.
  destruct (widths_grow ["id"; "name"] [None] []) as (H1 & _ & H3).
  split; [apply H3; lia | exact H1].
Defined.

(** ** The base URL and the paths *)

Section UrlFacts.
Import ConfigStore Backend Handlers.

Lemma dropSlash_spec s :
  (endsWith "/" s = true -> s = dropSlash s +:+ "/") /\
  (endsWith "/" s = false -> dropSlash s = s).
Proof.
  induction s as [|c s IH]; [done|].
  destruct s as [|c' s].
  - simpl. destruct (Ascii.eqb_spec c "/") as [->|]; [by split | by split].
  - destruct IH as [IH1 IH2].
    change (endsWith "/" (String c (String c' s))) with (endsWith "/" (String c' s)).
    change (dropSlash (String c (String c' s))) with (String c (dropSlash (String c' s))).
    split; intros H.
    + change (String c (dropSlash (String c' s)) +:+ "/")
        with (String c (dropSlash (String c' s) +:+ "/")).
      f_equal. by apply IH1.
    + f_equal. by apply IH2.
Qed.

Lemma dropSlash_head s : Js.trimStart s = s -> Js.trimStart (dropSlash s) = dropSlash s.
Proof.
  destruct s as [|c s]; [done|]. intros W%trimStart_fixed.
  destruct s as [|c' s].
  - simpl. destruct (Ascii.eqb c "/"); simpl; [done | by rewrite W].
  - change (dropSlash (String c (String c' s))) with (String c (dropSlash (String c' s))).
    simpl. by rewrite W.
Qed.

(** X21: the base URL that is stored is the trimmed text without its
    last slash, if it has one: one slash is taken off, not more, so
    the stored URL ends with a slash only when the text ended with two.
    It never starts with white space; and a text that, trimmed, does
    not end with a slash is stored as trimmed and is stored unchanged
    when entered again. *)
Theorem setApiBaseUrl_normalises (url : string) :
  let t := Js.trim url in
  let r := setApiBaseUrl url in
  (endsWith "/" t = true -> t = r +:+ "/") /\
  (endsWith "/" t = false -> r = t /\ setApiBaseUrl r = r) /\
  (endsWith "/" r = true -> endsWith "/" t = true) /\
  Js.trimStart r = r.
Proof.
  intros t r. unfold r, setApiBaseUrl. fold t.
  destruct (dropSlash_spec t) as [H1 H2].
  split; [done|]. split; [|split].
  - intros H. rewrite (H2 H). split; [done|]. unfold t. rewrite trim_idem. fold t. by apply H2.
  - intros H. destruct (endsWith "/" t) eqn:E; [done|]. by rewrite (H2 eq_refl), E in H.
  - apply dropSlash_head. unfold t, Js.trim. apply trimEnd_keeps_head, trimStart_idem.
Qed.

Lemma setApiBaseUrl_normalises_witness :
  let url := "  https://api.example.com/  " in
  setApiBaseUrl url = "https://api.example.com" /\
  Js.trim url = setApiBaseUrl url +:+ "/" /\
  setApiBaseUrl "https://api.example.com//" = "https://api.example.com/".
Proof.
  intros url. split; [reflexivity|]. split; [|reflexivity].
  destruct (setApiBaseUrl_normalises url) as (H & _). exact (H eq_refl).
Defined.

Lemma encode_unit_safe c :
  forallb url_safe (String.list_ascii_of_string (encode_unit c)) = true.
Proof. destruct c as [[] [] [] [] [] [] [] []]; reflexivity. Qed.

Lemma encode_unit_unreserved c : unreserved c = true -> encode_unit c = String c EmptyString.
Proof. intros H. unfold encode_unit. by rewrite H. Qed.

Lemma list_ascii_app a b :
  String.list_ascii_of_string (a +:+ b)
  = String.list_ascii_of_string a ++ String.list_ascii_of_string b.
Proof. induction a as [|c a IH]; simpl; [done | by rewrite IH]. Qed.

Lemma encodeURIComponent_safe s :
  forallb url_safe (String.list_ascii_of_string (encodeURIComponent s)) = true.
Proof.
  induction s as [|c s IH]; [done|]. simpl.
  by rewrite list_ascii_app, forallb_app, encode_unit_safe, IH.
Qed.

Lemma encodeURIComponent_no_slash s : sep_free "/" (encodeURIComponent s).
Proof.
  unfold sep_free. intros Hin%list_elem_of_In.
  pose proof (encodeURIComponent_safe s) as H. rewrite forallb_forall in H.
  by specialize (H _ Hin).
Qed.

Lemma path_segments (table last : string) :
  sep_free "/" last ->
  Js.split "/" ("/tables/" +:+ encodeURIComponent table +:+ String "/" last)
  = [EmptyString; "tables"; encodeURIComponent table; last].
Proof.
  intros Hl.
  change ("/tables/" +:+ encodeURIComponent table +:+ String "/" last)
    with (EmptyString +:+ String "/"
            ("tables" +:+ String "/" (encodeURIComponent table +:+ String "/" last))).
  rewrite split_app_sep by apply sep_free_empty.
  rewrite split_app_sep
    by (intros H; repeat (apply elem_of_cons in H as [H | H]; [discriminate|]);
        by apply elem_of_nil in H).
  rewrite split_app_sep by apply encodeURIComponent_no_slash.
  by rewrite split_sep_free.
Qed.

(** X22: whatever the name of the table, the path of a request has the
    four segments it is written with: the name, once escaped, has only
    letters, digits, the marks [-_.!~*'()] and percent signs, hence no
    slash, and fills exactly the third segment. A name of unreserved
    characters is its own escape. *)
Theorem table_paths (table : string) :
  Js.split "/" (columnsPath table)
  = [EmptyString; "tables"; encodeURIComponent table; "columns"] /\
  Js.split "/" (queryPath table)
  = [EmptyString; "tables"; encodeURIComponent table; "query"] /\
  Js.split "/" (streamPath table)
  = [EmptyString; "tables"; encodeURIComponent table; "stream"] /\
  forallb url_safe (String.list_ascii_of_string (encodeURIComponent table)) = true /\
  (forallb unreserved (String.list_ascii_of_string table) = true ->
   encodeURIComponent table = table).
Proof.
  split; [|split; [|split; [|split]]].
  - apply path_segments. intros H.
    repeat (apply elem_of_cons in H as [H | H]; [discriminate|]). by apply elem_of_nil in H.
  - apply path_segments. intros H.
    repeat (apply elem_of_cons in H as [H | H]; [discriminate|]). by apply elem_of_nil in H.
  - apply path_segments. intros H.
    repeat (apply elem_of_cons in H as [H | H]; [discriminate|]). by apply elem_of_nil in H.
  - apply encodeURIComponent_safe.
  - induction table as [|c table IH]; [done|]. simpl.
    intros [Hc Ht]%andb_prop. rewrite encode_unit_unreserved by done. simpl.
    by rewrite IH.
Qed.

Lemma table_paths_witness :
  encodeURIComponent "order_items" = "order_items" /\
  queryPath "a/b c" = "/tables/a%2Fb%20c/query".
Proof.
  split; [|reflexivity].
  apply (proj2 (proj2 (proj2 (proj2 (table_paths "order_items"))))). reflexivity.
Defined.
End UrlFacts.

(** ** The progress of an upload *)

Section ProgressFacts.
Import DataGrid UploadPanel.
Local Open Scope Q_scope.

Lemma round_to_even_ceil y : (round_to_even y <= Qfloor y + 1)%Z.
Proof.
  unfold round_to_even.
  destruct (Qcompare (y - inject_Z (Qfloor y)) (1 # 2)); [destruct (Z.even _)|..]; lia.
Qed.

Lemma ulp_le x : 0 < x -> Qpower 2 (binade x - 52) <= x * eps52.
Proof.
  intros Hx. rewrite Qpower_minus by done.
  unfold Qdiv. apply Qmult_le_compat_nonneg.
  - split; [apply Qlt_le_weak, two_power_pos | by apply binade_le].
  - split; [done | apply Qle_refl].
Qed.

Lemma rnd53_upper x : 0 < x -> rnd53 x <= x + x * eps52.
Proof.
  intros Hx. unfold rnd53.
  destruct x as [a b]. assert (0 < a)%Z as Ha by (unfold Qlt in Hx; simpl in Hx; lia).
  destruct a as [|p|p]; [lia | | lia]. simpl Qnum. cbv iota.
  set (x := Zpos p # b) in *. set (u := (binade x - 52)%Z).
  rewrite Qred_correct.
  pose proof (two_power_pos u) as Hu.
  pose proof (ulp_le x Hx) as Hulp. fold u in Hulp.
  assert (inject_Z (round_to_even (x / Qpower 2 u)) <= x / Qpower 2 u + 1) as Hr.
  { apply Qle_trans with (inject_Z (Qfloor (x / Qpower 2 u) + 1)).
    - rewrite <- Zle_Qle. apply round_to_even_ceil.
    - rewrite inject_Z_plus. apply Qplus_le_l. apply Qfloor_le. }
  apply Qle_trans with ((x / Qpower 2 u + 1) * Qpower 2 u).
  - apply Qmult_le_compat_r; [done | by apply Qlt_le_weak].
  - assert ((x / Qpower 2 u + 1) * Qpower 2 u == x + Qpower 2 u) as ->
      by (field; intros N; rewrite N in Hu; by apply Qlt_irrefl in Hu).
    by apply Qplus_le_r.
Qed.

Lemma rnd53_below (x high : Q) :
  0 < x -> x <= high -> rnd53 x <= high * (1 + eps52).
Proof.
  intros Hx Hh. apply Qle_trans with (x + x * eps52); [by apply rnd53_upper|].
  assert (x + x * eps52 == x * (1 + eps52)) as -> by ring.
  by apply Qmult_le_compat_r.
Qed.

Lemma ratio_bounds (u t : Z) :
  (0 < u <= t)%Z -> 0 < inject_Z u / inject_Z t /\ inject_Z u / inject_Z t <= 1.
Proof.
  intros [Hu Ht]. assert (0 < inject_Z t) as Htq by (apply inject_Z_pos; lia). split.
  - apply Qlt_shift_div_l; [done|]. rewrite Qmult_0_l. by apply inject_Z_pos.
  - apply Qle_shift_div_r; [done|]. rewrite Qmult_1_l. by rewrite <- Zle_Qle.
Qed.

(** X23: the percentage of an upload is 0 while a byte count is
    missing or 0; once both are there, integers below 2^53, and the
    uploaded count is positive and not above the total, it lies
    between 0 and 100, and it is 100 when the two counts are equal. *)
Theorem progress_bounds :
  (forall total, progress None total = 0%Z /\ progress (Some 0%Z) total = 0%Z) /\
  (forall uploaded, progress uploaded None = 0%Z /\ progress uploaded (Some 0%Z) = 0%Z) /\
  (forall u t, (0 < u <= t)%Z -> (t < 2 ^ 53)%Z ->
     (0 <= progress (Some u) (Some t) <= 100)%Z /\
     (u = t -> progress (Some u) (Some t) = 100%Z)).
Proof.
  split; [|split].
  - intros total. split; [done|]. by destruct total.
  - intros [u|]; [|done]. split; [done|]. simpl. by rewrite orb_true_r.
  - intros u t Hut _. unfold progress.
    destruct (Z.eqb_spec u 0); [lia|]. destruct (Z.eqb_spec t 0); [lia|]. simpl.
    destruct (ratio_bounds u t Hut) as [Hpos Hle].
    set (x := inject_Z u / inject_Z t) in *. unfold fdiv, fmul. fold x.
    pose proof (rnd53_lower x Hpos) as Ha1.
    pose proof (rnd53_below x 1 Hpos Hle) as Ha2.
    assert (0 < x - x * eps52) as Hxl.
    { assert (x - x * eps52 == x * (1 - eps52)) as -> by ring.
      apply Qmult_lt_0_compat; [done | reflexivity]. }
    assert (0 < rnd53 x * 100) as Hb0.
    { apply Qmult_lt_0_compat; [|reflexivity]. by apply Qlt_le_trans with (x - x * eps52). }
    assert (rnd53 x * 100 <= 1 * (1 + eps52) * 100) as Hb1
      by (by apply Qmult_le_compat_r).
    pose proof (rnd53_below _ _ Hb0 Hb1) as Hhi.
    pose proof (rnd53_lower _ Hb0) as Hlo.
    unfold Math_round. split; [split|].
    + change 0%Z with (Qfloor (0 + (1 # 2))). apply Qfloor_resp_le, Qplus_le_l.
      eapply Qle_trans; [|exact Hlo].
      assert (rnd53 x * 100 - rnd53 x * 100 * eps52 == rnd53 x * 100 * (1 - eps52)) as ->
        by ring.
      apply Qmult_le_0_compat; [by apply Qlt_le_weak | done].
    + change 100%Z with (Qfloor (1 * (1 + eps52) * 100 * (1 + eps52) + (1 # 2))).
      apply Qfloor_resp_le, Qplus_le_l, Hhi.
    + intros ->. apply Z.le_antisymm.
      * change 100%Z with (Qfloor (1 * (1 + eps52) * 100 * (1 + eps52) + (1 # 2))).
        apply Qfloor_resp_le, Qplus_le_l, Hhi.
      * change 100%Z with (Qfloor ((1 - eps52) * 100 * (1 - eps52) + (1 # 2))).
        apply Qfloor_resp_le, Qplus_le_l.
        eapply Qle_trans; [|exact Hlo].
        assert (rnd53 x * 100 - rnd53 x * 100 * eps52 == rnd53 x * 100 * (1 - eps52)) as ->
          by ring.
        apply Qmult_le_compat_r; [|done]. apply Qmult_le_compat_r; [|done].
        eapply Qle_trans; [|exact Ha1].
        assert (x - x * eps52 == x * (1 - eps52)) as -> by ring.
        rewrite <- (Qmult_1_l (1 - eps52)) at 1.
        apply Qmult_le_compat_r; [|done].
        unfold x. apply Qle_shift_div_l; [apply inject_Z_pos; lia|].
        rewrite Qmult_1_l. apply Qle_refl.
Qed.

Lemma progress_bounds_witness :
  progress (Some 1%Z) (Some 3%Z) = 33%Z /\
  (0 <= progress (Some 1%Z) (Some 3%Z) <= 100)%Z /\
  progress (Some 7%Z) (Some 7%Z) = 100%Z.
Proof.
  destruct progress_bounds as (_ & _ & H).
  split; [vm_compute; reflexivity|]. split.
  - apply (H 1%Z 3%Z); lia.
  - apply (H 7%Z 7%Z); lia.
Defined.
End ProgressFacts.

(** ** Editing the filter rows *)

Section RowEdits.
Import Api QueryView Handlers.

Lemma setRowColumn_lookup (idx k : nat) (c : string) (arr : list FilterRow) :
  setRowColumn idx c arr !! k
  = (fun it => if (k =? idx)%nat
               then {| row_column := Some c; row_op := row_op it; row_value := row_value it |}
               else it) <$> arr !! k.
Proof. unfold setRowColumn. by rewrite list_lookup_imap. Qed.

Lemma setRowValue_lookup (idx k : nat) (x : string) (arr : list FilterRow) :
  setRowValue idx x arr !! k
  = (fun it => if (k =? idx)%nat
               then {| row_column := row_column it; row_op := row_op it; row_value := Some x |}
               else it) <$> arr !! k.
Proof. unfold setRowValue. by rewrite list_lookup_imap. Qed.

(** X24: choosing the column of a row, or typing its value, changes
    that field of that row and nothing else: the other rows, the number
    of rows and the other fields of the row stay. Of two values typed
    into one row the last one stands; edits of different fields, or of
    different rows, give the same rows in either order. *)
Theorem row_edits (arr : list FilterRow) (idx : nat) (c x : string) :
  length (setRowColumn idx c arr) = length arr /\
  length (setRowValue idx x arr) = length arr /\
  (forall j, j <> idx ->
     setRowColumn idx c arr !! j = arr !! j /\ setRowValue idx x arr !! j = arr !! j) /\
  (forall it, arr !! idx = Some it ->
     setRowColumn idx c arr !! idx
     = Some {| row_column := Some c; row_op := row_op it; row_value := row_value it |} /\
     setRowValue idx x arr !! idx
     = Some {| row_column := row_column it; row_op := row_op it; row_value := Some x |}) /\
  (forall y, setRowValue idx y (setRowValue idx x arr) = setRowValue idx y arr) /\
  (forall jdx, setRowColumn idx c (setRowValue jdx x arr)
               = setRowValue jdx x (setRowColumn idx c arr)) /\
  (forall jdx y, jdx <> idx ->
     setRowValue idx x (setRowValue jdx y arr) = setRowValue jdx y (setRowValue idx x arr)).
Proof.
  split; [apply length_imap|]. split; [apply length_imap|].
  split; [|split; [|split; [|split]]].
  - intros j Hj. rewrite setRowColumn_lookup, setRowValue_lookup.
    apply Nat.eqb_neq in Hj. rewrite Hj. by destruct (arr !! j).
  - intros it E. rewrite setRowColumn_lookup, setRowValue_lookup, E. simpl.
    by rewrite Nat.eqb_refl.
  - intros y. apply list_eq. intros k. rewrite !setRowValue_lookup.
    destruct (arr !! k); simpl; [|done]. by destruct (k =? idx)%nat.
  - intros jdx. apply list_eq. intros k.
    rewrite setRowColumn_lookup, !setRowValue_lookup, setRowColumn_lookup.
    destruct (arr !! k); simpl; [|done].
    by destruct (k =? idx)%nat, (k =? jdx)%nat.
  - intros jdx y Hne. apply list_eq. intros k. rewrite !setRowValue_lookup.
    destruct (arr !! k); simpl; [|done].
    destruct (Nat.eqb_spec k idx), (Nat.eqb_spec k jdx); try done. congruence.
Qed.

Lemma row_edits_witness :
  let a := {| row_column := Some "a"; row_op := Api.eq; row_value := Some "1" |} in
  let b := {| row_column := None; row_op := Api.lt; row_value := None |} in
  setRowColumn 1 "b" [a; b] !! 0%nat = Some a /\
  setRowValue 1 "2" [a; b] !! 1%nat
  = Some {| row_column := None; row_op := Api.lt; row_value := Some "2" |} /\
  setRowValue 1 "2" (setRowValue 0 "3" [a; b]) = setRowValue 0 "3" (setRowValue 1 "2" [a; b]).
Proof.
  intros a b.
  destruct (row_edits [a; b] 1 "b" "2") as (_ & _ & H1 & H2 & _ & _ & H3).
  split; [apply (H1 0%nat); lia|]. split; [apply (H2 b); reflexivity|].
  apply (H3 0%nat "3"). lia.
Defined.
End RowEdits.

(** ** Binary64 numbers *)

Section Numbers.
Import Binary64.
Local Open Scope Q_scope.

(** On the sample values, [fadd] and [fsub] are the IEEE 754 sum and
    difference, and [of_number] reads a literal as the correctly
    rounded quotient does. *)
Lemma sums_are_binary64 : sums_agree = true.
Proof. vm_compute. reflexivity. Qed.

Lemma literals_are_binary64 : literals_agree = true.
Proof. vm_compute. reflexivity. Qed.

Lemma round_to_even_whole y k : y == inject_Z k -> round_to_even y = k.
Proof.
  intros E. unfold round_to_even.
  assert (Qfloor y = k) as -> by (rewrite E; apply Qfloor_Z).
  assert (y - inject_Z k == 0) as -> by (rewrite E; ring).
  reflexivity.
Qed.

Lemma Qred_whole q n : q == inject_Z n -> Qred q = inject_Z n.
Proof.
  intros E. rewrite (Qred_complete _ _ E). apply Qcanon.Qred_identity. simpl. apply Z.gcd_1_r.
Qed.

Lemma whole_of_Z n : whole (of_Z n) = Some n.
Proof. reflexivity. Qed.

Lemma whole_Some x n : whole x = Some n -> x = of_Z n.
Proof.
  destruct x as [| |[a b]]; simpl; try done.
  destruct b; try done. by intros [= ->].
Qed.

Lemma of_Z_inj a b : of_Z a = of_Z b -> a = b.
Proof. by intros [= ->]. Qed.

Lemma binade_bound x n :
  x == inject_Z n -> (0 < n <= exact_bound)%Z ->
  (binade x <= 52)%Z \/ (binade x = 53%Z /\ n = exact_bound).
Proof.
  intros E [Hn Hb].
  assert (0 < x) as Hx by (rewrite E; by apply inject_Z_pos).
  pose proof (binade_le x Hx) as Hle.
  change (DataGrid.binade x) with (binade x) in Hle.
  destruct (Z_le_gt_dec (binade x) 52) as [|Hgt]; [by left | right].
  assert (inject_Z (2 ^ binade x) <= inject_Z n) as Hle'.
  { rewrite <- two_power_Z by lia. rewrite <- E. exact Hle. }
  rewrite <- Zle_Qle in Hle'.
  assert (2 ^ 53 <= 2 ^ binade x)%Z as H53 by (apply Z.pow_le_mono_r; lia).
  change (2 ^ 53)%Z with exact_bound in H53.
  split; [|lia].
  destruct (Z_le_gt_dec (binade x) 53) as [|Hgt']; [lia|].
  assert (2 ^ 54 <= 2 ^ binade x)%Z as H54 by (apply Z.pow_le_mono_r; lia).
  change (2 ^ 54)%Z with (2 * exact_bound)%Z in H54. lia.
Qed.

Lemma round_pos_whole x n :
  x == inject_Z n -> (0 < n <= exact_bound)%Z -> round_pos x = of_Z n.
Proof.
  intros E Hn. unfold round_pos.
  set (u := Z.max (binade x - 52) (-1074)).
  assert (exists m : Z, x / Qpower 2 u == inject_Z m /\
                        inject_Z m * Qpower 2 u == inject_Z n) as (m & Hm & Hr).
  { destruct (binade_bound x n E Hn) as [Hb | [Hb ->]].
    - assert (u <= 0)%Z as Hu by lia.
      assert (Qpower 2 u == / inject_Z (2 ^ (- u))) as Hp.
      { rewrite <- two_power_Z by lia. rewrite <- Qpower_opp.
        by rewrite Z.opp_involutive. }
      assert (0 < inject_Z (2 ^ (- u))) as Hpos by (apply inject_Z_pos; lia).
      exists (n * 2 ^ (- u))%Z. rewrite Hp, E, inject_Z_mult. split.
      + field. intros N. rewrite N in Hpos. by apply Qlt_irrefl in Hpos.
      + field. intros N. rewrite N in Hpos. by apply Qlt_irrefl in Hpos.
    - assert (u = 1%Z) as -> by lia.
      exists 4503599627370496%Z. rewrite E. split; reflexivity. }
  rewrite (round_to_even_whole _ m Hm).
  destruct (Qle_bool (Qpower 2 1024) (inject_Z m * Qpower 2 u)) eqn:Hov.
  - apply Qle_bool_iff in Hov. rewrite Hr, two_power_Z in Hov by lia.
    rewrite <- Zle_Qle in Hov.
    assert (2 ^ 54 <= 2 ^ 1024)%Z as H54 by (apply Z.pow_le_mono_r; lia).
    change (2 ^ 54)%Z with (2 * exact_bound)%Z in H54. lia.
  - unfold of_Z. f_equal. by apply Qred_whole.
Qed.

Lemma round64_whole x n :
  x == inject_Z n -> (- exact_bound <= n <= exact_bound)%Z -> round64 x = of_Z n.
Proof.
  intros E Hn. unfold round64.
  destruct x as [a b]. assert (a = n * Zpos b)%Z as Ha.
  { unfold Qeq in E. simpl in E. lia. }
  destruct a as [|p|p]; simpl Qnum; cbv iota.
  - assert (n = 0)%Z as -> by nia. reflexivity.
  - apply round_pos_whole; [done | nia].
  - rewrite (round_pos_whole (- (Zneg p # b)) (- n)).
    + unfold fneg, of_Z. f_equal. apply Qred_whole.
      unfold Qeq. simpl. lia.
    + rewrite E. unfold Qeq. simpl. lia.
    + nia.
Qed.

Lemma fneg_whole n : fneg (of_Z n) = of_Z (- n).
Proof. unfold fneg, of_Z. f_equal. apply Qred_whole. reflexivity. Qed.

Lemma fadd_whole a b :
  (- exact_bound <= a + b <= exact_bound)%Z -> fadd (of_Z a) (of_Z b) = of_Z (a + b).
Proof.
  intros H. unfold fadd, of_Z. apply round64_whole; [|done].
  by rewrite inject_Z_plus.
Qed.

Lemma fsub_whole a b :
  (- exact_bound <= a - b <= exact_bound)%Z -> fsub (of_Z a) (of_Z b) = of_Z (a - b).
Proof.
  intros H. unfold fsub. rewrite fneg_whole. by apply fadd_whole.
Qed.

Lemma Math_max_whole a b : Math_max (of_Z a) (of_Z b) = of_Z (Z.max a b).
Proof.
  unfold Math_max, of_Z. destruct (Qle_bool (inject_Z a) (inject_Z b)) eqn:E.
  - apply Qle_bool_iff in E. rewrite <- Zle_Qle in E. by rewrite Z.max_r.
  - assert (~ (a <= b)%Z) as N.
    { intros N. rewrite Zle_Qle in N. apply Qle_bool_iff in N. congruence. }
    rewrite Z.max_l by lia. done.
Qed.

Lemma round_to_even_nonneg y : 0 <= y -> (0 <= round_to_even y)%Z.
Proof.
  intros Hy. pose proof (round_to_even_floor y) as Hf.
  change (DataGrid.round_to_even y) with (round_to_even y) in Hf.
  assert (0 <= Qfloor y)%Z; [|lia].
  change 0%Z with (Qfloor 0). by apply Qfloor_resp_le.
Qed.

Lemma round_pos_at_least_0 x : 0 < x -> at_least 0 (round_pos x).
Proof.
  intros Hx. unfold round_pos.
  set (u := Z.max (binade x - 52) (-1074)). pose proof (two_power_pos u) as Hu.
  destruct (Qle_bool _ _); [done|]. simpl. rewrite Qred_correct.
  apply Qmult_le_0_compat; [|by apply Qlt_le_weak].
  change 0 with (inject_Z 0). rewrite <- Zle_Qle. apply round_to_even_nonneg.
  apply Qle_shift_div_l; [done|]. rewrite Qmult_0_l. by apply Qlt_le_weak.
Qed.

Lemma round64_at_least_0 x : 0 <= x -> at_least 0 (round64 x).
Proof.
  intros Hx. unfold round64. destruct x as [a b].
  assert (0 <= a)%Z as Ha by (unfold Qle in Hx; simpl in Hx; lia).
  destruct a as [|p|p]; simpl Qnum; cbv iota; [apply Qle_refl | | lia].
  by apply round_pos_at_least_0.
Qed.

Lemma round64_number x : round64 x <> NaN.
Proof.
  unfold round64, round_pos.
  destruct (Qnum x); [done | |]; by destruct (Qle_bool _ _).
Qed.

Lemma Math_max_at_least (c : Z) (y : num) :
  y <> NaN -> at_least (inject_Z c) (Math_max (of_Z c) y).
Proof.
  intros Hy. destruct y as [|[]|q]; simpl; try done; [apply Qle_refl|].
  destruct (Qle_bool (inject_Z c) q) eqn:E; simpl; [by apply Qle_bool_iff | apply Qle_refl].
Qed.
End Numbers.

(** ** Pagination *)

Section Pagination.
Import Binary64 QueryView.

(** C9, as stated, fails: from the initial state, Next and then an
    edit of the limit to 30 leave the offset at 100, which is not a
    multiple of 30. *)
Lemma offset_not_multiple_after_edit :
  let v := pages (initial (Some "orders")) [Next; EditLimit "30"] in
  offset v = of_Z 100 /\ limit v = of_Z 30 /\
  ~ (exists k l : Z, limit v = of_Z l /\ offset v = of_Z (k * l)).
Proof.
  intros v.
  assert (offset v = of_Z 100) as Ho by (vm_compute; reflexivity).
  assert (limit v = of_Z 30) as Hl by (vm_compute; reflexivity).
  split; [done|]. split; [done|]. intros (k & l & El & Eo).
  rewrite Hl in El. rewrite Ho in Eo.
  apply of_Z_inj in El. apply of_Z_inj in Eo. lia.
Qed.

(** Nor is the offset a multiple of a limit that is not whole: with
    the limit 1.3, three times Next give 3.9000000000000004, and Prev
    after Next does not give back 2.6. *)
Lemma offset_of_fraction :
  let v := pages (initial (Some "orders")) [EditLimit "1.3"; Next; Next] in
  offset (page v Next) = Fin (2195504818343117 # 562949953421312) /\
  page (page v Next) Prev <> v.
Proof.
  intros v. split; [vm_compute; reflexivity|].
  intros N. apply (f_equal offset) in N. vm_compute in N. discriminate.
Qed.

Lemma typed_finite text :
  is_finite (typed text) = true -> exists q, typed text = Fin q /\ (1 <= q)%Q.
Proof.
  unfold typed, Math_max, of_Z.
  destruct (of_number (Js.Number text)) as [|[]|q]; simpl; try done.
  - intros _. by exists 1%Q.
  - destruct (Qle_bool (inject_Z 1) q) eqn:E; intros _.
    + exists q. split; [done|]. by apply Qle_bool_iff.
    + by exists 1%Q.
Qed.

Lemma typed_whole text l : typed text = of_Z l -> 1 <= l.
Proof.
  unfold typed, Math_max.
  destruct (of_number (Js.Number text)) as [|[]|q]; simpl; try done.
  - by intros <-%of_Z_inj.
  - change (of_Z 1) with (Fin (inject_Z 1)).
    destruct (Qle_bool (inject_Z 1) q) eqn:E.
    + intros [= ->]. apply Qle_bool_iff in E. by rewrite Zle_Qle.
    + by intros <-%of_Z_inj.
Qed.

Lemma page_bounds v o :
  (match o with EditLimit text => is_finite (typed text) = true | _ => True end) ->
  (exists q, limit v = Fin q /\ (1 <= q)%Q) -> at_least 0 (offset v) ->
  (exists q, limit (page v o) = Fin q /\ (1 <= q)%Q) /\ at_least 0 (offset (page v o)).
Proof.
  intros Ho (q & Hl & Hq) Hoff. destruct o as [| |text]; simpl.
  - split; [by exists q|]. apply (Math_max_at_least 0).
    rewrite Hl. destruct (offset v) as [|[]|p]; simpl in *; try done.
    apply round64_number.
  - split; [by exists q|]. rewrite Hl.
    destruct (offset v) as [|[]|p]; simpl in *; try done.
    apply round64_at_least_0.
    apply Qle_trans with (0 + 1)%Q; [done|]. by apply Qplus_le_compat.
  - split; [by apply typed_finite | done].
Qed.

Lemma pages_bounds os : forall v,
  finite_edits os = true ->
  (exists q, limit v = Fin q /\ (1 <= q)%Q) -> at_least 0 (offset v) ->
  (exists q, limit (pages v os) = Fin q /\ (1 <= q)%Q) /\ at_least 0 (offset (pages v os)).
Proof.
  induction os as [|o os IH]; intros v Hf Hl Ho; [done|].
  simpl in Hf. apply andb_prop in Hf as [Hf1 Hf2].
  destruct (page_bounds v o) as [Hl' Ho']; [by destruct o | done | done |].
  by apply IH.
Qed.

(** The whole numbers of a view whose sums are exact. *)
Lemma page_whole v (n l : Z) :
  limit v = of_Z l -> offset v = of_Z n ->
  1 <= l <= exact_bound -> 0 <= n <= exact_bound ->
  offset (page v Prev) = of_Z (Z.max 0 (n - l)) /\
  (n + l <= exact_bound -> offset (page v Next) = of_Z (n + l)).
Proof.
  intros Hl Ho Hlb Hnb. simpl. rewrite Hl, Ho. split.
  - rewrite fsub_whole by lia. apply Math_max_whole.
  - intros H. apply fadd_whole. lia.
Qed.

Lemma page_aligned v o :
  (exists k l : Z, 0 <= k /\ 1 <= l <= exact_bound /\ k * l <= exact_bound /\
     limit v = of_Z l /\ offset v = of_Z (k * l)) ->
  steady v [o] = true ->
  exists k l : Z, 0 <= k /\ 1 <= l <= exact_bound /\ k * l <= exact_bound /\
    limit (page v o) = of_Z l /\ offset (page v o) = of_Z (k * l).
Proof.
  intros (k & l & Hk & Hl & Hkl & El & Eo) Hs.
  destruct (page_whole v (k * l) l El Eo Hl) as [Hprev Hnext]; [nia|].
  destruct o as [| |text].
  - destruct (Z.eq_dec k 0) as [->|].
    + exists 0, l. rewrite Hprev. repeat split; try done; try lia.
      f_equal. lia.
    + exists (k - 1), l. rewrite Hprev. repeat split; try done; try lia; try nia.
      f_equal. nia.
  - simpl in Hs. rewrite Eo, El in Hs. simpl in Hs.
    rewrite andb_true_r in Hs. apply Z.leb_le in Hs.
    exists (k + 1), l. rewrite Hnext by done.
    repeat split; try done; try lia; try nia. f_equal. nia.
  - simpl in Hs. rewrite andb_true_r in Hs. apply andb_prop in Hs as [Hz Hw].
    apply bool_decide_eq_true in Hz.
    destruct (whole (typed text)) as [l'|] eqn:Ew; [|done].
    apply Z.leb_le in Hw. apply whole_Some in Ew.
    pose proof (typed_whole text l' Ew) as Hl'.
    exists 0, l'. simpl. rewrite Ew, Hz. repeat split; try done; lia.
Qed.

Lemma steady_cons v o os : steady v (o :: os) = steady v [o] && steady (page v o) os.
Proof. simpl. by rewrite andb_true_r. Qed.

Lemma pages_aligned os : forall v,
  (exists k l : Z, 0 <= k /\ 1 <= l <= exact_bound /\ k * l <= exact_bound /\
     limit v = of_Z l /\ offset v = of_Z (k * l)) ->
  steady v os = true -> aligned (pages v os).
Proof.
  induction os as [|o os IH]; intros v Hv Hs.
  - destruct Hv as (k & l & Hk & Hl & _ & El & Eo). exists k, l.
    repeat split; try done. lia.
  - rewrite steady_cons in Hs. apply andb_prop in Hs as [Hs1 Hs2].
    apply IH; [|done]. by apply page_aligned.
Qed.

(** C9 (amended): from the initial state, after every sequence of
    Prev, Next and edits of the limit in which each text typed gives a
    finite limit, the limit is finite and at least 1 and the offset is
    not negative. The offset is moreover a whole multiple of the
    current limit when every edit of the limit was made while the
    offset was 0 and gave a whole number, and no Next took the offset
    beyond 2^53, from where on the sums are rounded. An edit of the
    limit leaves the offset as it is. *)
Theorem offset_multiple_of_limit (table : option string) (os : list PageOp) :
  let v := pages (initial table) os in
  (finite_edits os = true ->
   (exists q, limit v = Fin q /\ (1 <= q)%Q) /\ at_least 0 (offset v)) /\
  (steady (initial table) os = true ->
   exists k l : Z, 0 <= k /\ 1 <= l /\ limit v = of_Z l /\ offset v = of_Z (k * l)) /\
  (forall w text, offset (page w (EditLimit text)) = offset w).
Proof.
  intros v. split; [|split].
  - intros Hf. apply pages_bounds; [done | |].
    + exists 100%Q. by split.
    + simpl. apply Qle_refl.
  - intros Hs. apply (pages_aligned os (initial table)); [|done].
    exists 0, 100. repeat split; try done; unfold exact_bound; lia.
  - done.
Qed.

(** A run that edits the limit at offset 0 and then pages. *)
Lemma offset_multiple_of_limit_witness :
  let os := [EditLimit "30"; Next; Next; Next; Prev] in
  finite_edits os = true /\ steady (initial None) os = true /\
  limit (pages (initial None) os) = of_Z 30 /\
  offset (pages (initial None) os) = of_Z 60 /\
  exists k l : Z, 0 <= k /\ 1 <= l /\
    limit (pages (initial None) os) = of_Z l /\
    offset (pages (initial None) os) = of_Z (k * l).
Proof.
  intros os.
  assert (finite_edits os = true) as Hf by (vm_compute; reflexivity).
  assert (steady (initial None) os = true) as Hs by (vm_compute; reflexivity).
  split; [done|]. split; [done|].
  split; [vm_compute; reflexivity|]. split; [vm_compute; reflexivity|].
  exact (proj1 (proj2 (offset_multiple_of_limit None os)) Hs).
Defined.

(** X11: while the limit and the offset are whole numbers and the
    offset after Next is at most 2^53, so that no sum is rounded, Next
    followed by Prev gives back the view; Prev gives the offset less
    the limit, or 0 if that is negative, so Prev followed by Next
    gives back the offset only from the limit upwards, and the limit
    itself below it. *)
Theorem next_prev (v : View) (n l : Z) :
  limit v = of_Z l -> offset v = of_Z n ->
  1 <= l -> 0 <= n -> n + l <= exact_bound ->
  page (page v Next) Prev = v /\
  offset (page v Prev) = of_Z (Z.max 0 (n - l)) /\
  offset (page (page v Prev) Next) = of_Z (Z.max n l) /\
  limit (page (page v Prev) Next) = limit v.
Proof.
  intros El Eo Hl Hn Hb.
  destruct (page_whole v n l El Eo) as [Hprev Hnext]; [lia | lia |].
  split; [|split; [|split]].
  - destruct v as [t fs rows lg ob lim off]. cbn [limit offset] in El, Eo. subst lim off.
    unfold page. cbn [selectedTable fields filters logical orderBy limit offset].
    f_equal. rewrite fadd_whole by lia. rewrite fsub_whole by lia.
    rewrite Math_max_whole. f_equal. lia.
  - done.
  - destruct (page_whole (page v Prev) (Z.max 0 (n - l)) l El Hprev) as [_ H];
      [lia | lia |].
    rewrite H by lia. f_equal. lia.
  - done.
Qed.

Lemma next_prev_witness :
  let v := pages (initial (Some "orders")) [Next; Next] in
  page (page v Next) Prev = v /\ offset (page (page v Prev) Next) = of_Z 200.
Proof.
  intros v.
  assert (limit v = of_Z 100) as El by (vm_compute; reflexivity).
  assert (offset v = of_Z 200) as Eo by (vm_compute; reflexivity).
  destruct (next_prev v 200 100 El Eo) as (H1 & _ & H2 & _);
    [lia | lia | unfold exact_bound; lia |].
  split; [exact H1 | exact H2].
Defined.
End Pagination.
